(** * The emage compression pipeline (src/app/menu.js, second document:
      the [Process] class and its engine selector)

    A shallow embedding of [isLibjpegNotFound], [engineJpg], [enginePng],
    [engineSvg], [engineGif], [getPlugin] and the [Process] class, with the
    properties of the pipeline stated over it.

    Conventions of the embedding.
    - JavaScript strings are Rocq [string]s (8-bit code units).
    - Byte sizes are JavaScript numbers holding integers: [Z].
    - A regular-expression literal is a value of [regex]; [RegExp_test]
      is [RegExp.prototype.test] for the fragment the source uses
      (literal characters, [.+], concatenation, no anchors, no flags).
    - A synchronous call that may throw and a promise that may reject are
      both a [Completion]: [Normal v] (returned / fulfilled with [v]) or
      [Abrupt ex] (threw / rejected with [ex]).
    - The file system, [imagemin] and the [path] module are external: they
      are the fields of the class [Host], and every theorem holds for every
      host.
    - Event listeners are external consumers; [emit] records the event in
      the trace of the run and returns. *)

From Stdlib Require Import String Ascii List ZArith Bool Lia.
From stdpp Require Import base option list gmap strings.
Import ListNotations.

Local Open Scope Z_scope.

(** ** JavaScript strings and the regular expressions of the source *)

Module Js.

(** [strip lit s]: [s] without its prefix [lit], when [s] starts with it. *)
Fixpoint strip (lit s : string) : option string :=
  match lit with
  | EmptyString => Some s
  | String a lit' =>
      match s with
      | EmptyString => None
      | String b s' => if Ascii.eqb a b then strip lit' s' else None
      end
  end.

(** The characters [.] does not match: the line terminators LF and CR
    (U+2028 and U+2029 lie outside 8-bit code units). *)
Definition isLineTerminator (c : ascii) : bool :=
  (nat_of_ascii c =? 10)%nat || (nat_of_ascii c =? 13)%nat.

Definition dot (c : ascii) : bool := negb (isLineTerminator c).

(** The fragment of regular expressions that occurs in the source. *)
Inductive regex : Type :=
| Lit (lit : string)          (* a run of literal characters *)
| AnyPlus                     (* [.+] *)
| Cat (r1 r2 : regex).        (* juxtaposition *)

(** [.+] followed by the continuation [k], with backtracking. *)
Fixpoint anyPlusK (k : string -> bool) (s : string) : bool :=
  match s with
  | EmptyString => false
  | String c s' => dot c && (k s' || anyPlusK k s')
  end.

(** Backtracking matcher: [matchK r k s] holds when a prefix of [s]
    matches [r] and the rest satisfies [k]. *)
Fixpoint matchK (r : regex) (k : string -> bool) (s : string) : bool :=
  match r with
  | Lit lit => match strip lit s with Some s' => k s' | None => false end
  | AnyPlus => anyPlusK k s
  | Cat r1 r2 => matchK r1 (matchK r2 k) s
  end.

(** [RegExp.prototype.test] without anchors: a match may start at any index. *)
Fixpoint RegExp_test (r : regex) (s : string) : bool :=
  matchK r (fun _ => true) s
  || match s with
     | EmptyString => false
     | String _ s' => RegExp_test r s'
     end.

(** The language of a [regex], as a relation. *)
Inductive Matches : regex -> string -> Prop :=
| MLit lit : Matches (Lit lit) lit
| MAnyOne c : dot c = true -> Matches AnyPlus (String c EmptyString)
| MAnyMore c w : dot c = true -> Matches AnyPlus w -> Matches AnyPlus (String c w)
| MCat r1 r2 w1 w2 : Matches r1 w1 -> Matches r2 w2 -> Matches (Cat r1 r2) (w1 +:+ w2).

(** [s] has a substring in the language of [r]. *)
Definition Found (r : regex) (s : string) : Prop :=
  exists pre w post, s = pre +:+ w +:+ post /\ Matches r w.

(** [ToString] of a property that may be [undefined]. *)
Definition ToString (v : option string) : string :=
  match v with
  | Some s => s
  | None => "undefined"
  end.

(** An [Error] object: the two properties the source reads. *)
Record Error := mkError { code : option string; message : string }.

(** [new Error(msg)] *)
Definition newError (msg : string) : Error := {| code := None; message := msg |}.

(** Completion of a call or of a promise. *)
Inductive Completion (A : Type) : Type :=
| Normal (a : A)
| Abrupt (ex : Error).
Arguments Normal {A} a.
Arguments Abrupt {A} ex.

End Js.
Import Js.

(** ** Engine selector *)

(** A configured imagemin plugin: the factory called and its options. *)
Inductive Plugin : Type :=
| imageminJpegoptim (progressive : bool)
| imageminJpegtran (progressive : bool)
| imageminMozjpeg (quality : Z)
| imageminAdvpng (optimizationLevel : Z)
| imageminOptipng
| imageminPngcrush (reduce : bool)
| imageminPngout
| imageminZopfli (transparent : bool)
| imageminSvgo
| imageminGiflossy (interlaced : bool) (optimizationLevel : Z) (optimize : Z)
| imageminGifsicle (interlaced : bool) (optimizationLevel : Z).

(** What an engine or [getPlugin] returns: a plugin, [null] or [undefined]. *)
Inductive PluginResult : Type :=
| plugin (p : Plugin)
| null
| undefined.

(** const isLibjpegNotFound = ex =>
      /EPIPE/.test(ex.code) || /Library not loaded:.+libjpeg/.test(ex.message) *)
Definition isLibjpegNotFound (ex : Error) : bool :=
  RegExp_test (Lit "EPIPE") (ToString (code ex))
  || RegExp_test (Cat (Lit "Library not loaded:") (Cat AnyPlus (Lit "libjpeg")))
       (message ex).

Definition engineJpg (algorithm : string) : PluginResult :=
  if String.eqb algorithm "jpegoptim" then plugin (imageminJpegoptim false)
  else if String.eqb algorithm "jpegtran" then plugin (imageminJpegtran true)
  else if String.eqb algorithm "mozjpeg" then plugin (imageminMozjpeg 90)
  else null.

Definition enginePng (algorithm : string) : PluginResult :=
  if String.eqb algorithm "advpng" then plugin (imageminAdvpng 4)
  else if String.eqb algorithm "optipng" then plugin imageminOptipng
  else if String.eqb algorithm "pngcrush" then plugin (imageminPngcrush true)
  else if String.eqb algorithm "pngout" then plugin imageminPngout
  else if String.eqb algorithm "zopfli" then plugin (imageminZopfli true)
  else null.

Definition engineSvg (algorithm : string) : PluginResult :=
  if String.eqb algorithm "svgo" then plugin imageminSvgo
  else null.

Definition engineGif (algorithm : string) : PluginResult :=
  if String.eqb algorithm "giflossy" then plugin (imageminGiflossy true 3 3)
  else if String.eqb algorithm "gifsicle" then plugin (imageminGifsicle true 3)
  else null.

Definition getPlugin (fileType algorithm : string) : PluginResult :=
  if RegExp_test (Lit "image/jpg") fileType || RegExp_test (Lit "image/jpeg") fileType
  then engineJpg algorithm
  else if RegExp_test (Lit "image/png") fileType
  then enginePng algorithm
  else if RegExp_test (Lit "image/svg") fileType
          || RegExp_test (Lit "image/svg+xml") fileType
  then engineSvg algorithm
  else if RegExp_test (Lit "image/gif") fileType
  then engineGif algorithm
  else undefined.

(** ** The host: everything [Process] calls that lives outside the source *)

Class Host : Type := {
  (** state of the file system and of the native tools *)
  World : Type;
  (** [path.extname(p)] *)
  path_extname : string -> string;
  (** [path.resolve(p, q)] *)
  path_resolve : string -> string -> string;
  (** [s.replace(pattern, replacement)] with a string pattern *)
  String_replace : string -> string -> string -> string;
  (** [fs.copyFileSync(src, dest)] *)
  fs_copyFileSync : string -> string -> World -> Completion unit * World;
  (** [fs.statSync(p).size] *)
  fs_statSync_size : string -> World -> Completion Z * World;
  (** [imagemin(input, output, { plugins })]: the promise it returns, settled;
      the value it is fulfilled with is kept as its truthiness, which is all
      the source inspects. *)
  imagemin : string -> string -> list PluginResult -> World -> Completion bool * World;
}.

(** The double-quote character, for the two messages that contain it. *)
Definition dquote : string := String (ascii_of_nat 34) EmptyString.

Module File.
(** The image descriptor handed to the constructor. *)
Record t := mk { path : string; type : string; size : Z }.
End File.

Module Current.
(** The record [{ algorithm, index, length }] built by [_createJob]. *)
Record t := mk { algorithm : string; index : nat; length : nat }.
End Current.

Module ErrorRecord.
(** The record [{ algorithm, message }] pushed to [errors]. *)
Record t := mk { algorithm : string; message : string }.
End ErrorRecord.

Module Process.

(** The fields of a [Process] instance. *)
Record t := mk {
  file : File.t;
  path : string;
  originalSize : Z;
  size : Z;
  dir : string;
  algorithms : list string;
  currentAlgorithm : option Current.t;       (* [None] is [null] *)
  finishedAlgorithms : list string;
  finished : bool;
  failed : bool;
  errors : list ErrorRecord.t;
}.

Definition set_currentAlgorithm (c : option Current.t) (p : t) : t :=
  mk (file p) (path p) (originalSize p) (size p) (dir p) (algorithms p)
     c (finishedAlgorithms p) (finished p) (failed p) (errors p).

Definition push_finishedAlgorithms (a : string) (p : t) : t :=
  mk (file p) (path p) (originalSize p) (size p) (dir p) (algorithms p)
     (currentAlgorithm p) (finishedAlgorithms p ++ [a]) (finished p) (failed p) (errors p).

Definition set_size (n : Z) (p : t) : t :=
  mk (file p) (path p) (originalSize p) n (dir p) (algorithms p)
     (currentAlgorithm p) (finishedAlgorithms p) (finished p) (failed p) (errors p).

Definition push_errors (e : ErrorRecord.t) (p : t) : t :=
  mk (file p) (path p) (originalSize p) (size p) (dir p) (algorithms p)
     (currentAlgorithm p) (finishedAlgorithms p) (finished p) (failed p) (errors p ++ [e]).

Definition set_failed (b : bool) (p : t) : t :=
  mk (file p) (path p) (originalSize p) (size p) (dir p) (algorithms p)
     (currentAlgorithm p) (finishedAlgorithms p) (finished p) b (errors p).

Definition set_finished (b : bool) (p : t) : t :=
  mk (file p) (path p) (originalSize p) (size p) (dir p) (algorithms p)
     (currentAlgorithm p) (finishedAlgorithms p) b (failed p) (errors p).

(** The events of the emitter, with their payloads. *)
Inductive Event : Type :=
| on_start (cur : option Current.t)
| on_end (cur : option Current.t) (size : Z)
| on_done (size : Z)
| on_failed (ex : Error)
| on_finish.

(** What an onlooker of a run sees, in order: the instance after each
    assignment to one of its fields, and each event emitted. *)
Inductive Obs : Type :=
| Assigned (p : t)
| Emitted (e : Event).

Section WithHost.
Context {host : Host}.

(** The run as a whole: the instance, the world, and the trace so far. *)
Record Sys := mkSys { this : t; world : World; trace : list Obs }.

(** Code of the class: reads and writes [this], calls the host, and
    completes normally or abruptly. *)
Definition M (A : Type) : Type := Sys -> Completion A * Sys.

Definition ret {A} (a : A) : M A := fun s => (Normal a, s).

Definition throw {A} (ex : Error) : M A := fun s => (Abrupt ex, s).

(** Sequencing; for promises, [p.then(f)]. *)
Definition then_ {A B} (m : M A) (f : A -> M B) : M B :=
  fun s =>
    match m s with
    | (Normal a, s') => f a s'
    | (Abrupt ex, s') => (Abrupt ex, s')
    end.

(** [p.catch(h)]; a handler that is not a function lets the rejection through. *)
Definition catch_ {A} (m : M A) (h : option (Error -> M A)) : M A :=
  fun s =>
    match m s with
    | (Normal a, s') => (Normal a, s')
    | (Abrupt ex, s') =>
        match h with
        | Some handler => handler ex s'
        | None => (Abrupt ex, s')
        end
    end.

(** [p.finally(f)]: [f] runs either way and the completion of [p] is kept,
    unless [f] itself completes abruptly. *)
Definition finally_ {A} (m : M A) (f : M unit) : M A :=
  fun s =>
    let (c, s') := m s in
    match f s' with
    | (Normal _, s'') => (c, s'')
    | (Abrupt ex, s'') => (Abrupt ex, s'')
    end.

Definition get : M t := fun s => (Normal (this s), s).

(** An assignment to a field of [this] (or a [push] on one of its arrays). *)
Definition assign (f : t -> t) : M unit :=
  fun s =>
    let p := f (this s) in
    (Normal tt, mkSys p (world s) (trace s ++ [Assigned p])).

(** [this.emit(...)] *)
Definition emit (e : Event) : M unit :=
  fun s => (Normal tt, mkSys (this s) (world s) (trace s ++ [Emitted e])).

(** A call to the host. *)
Definition call {A} (f : World -> Completion A * World) : M A :=
  fun s => let (c, w) := f (world s) in (c, mkSys (this s) w (trace s)).

Notation "x <- m ;; k" := (then_ m (fun x => k))
  (at level 100, m at next level, right associativity).
Notation "m ;;; k" := (then_ m (fun _ => k))
  (at level 100, right associativity).

(** Modelled from the spec: [Promise.map(items, mapper, { concurrency: 1 })].
    The source does not define [Promise.map]. The spec (section 4.2) has the
    steps run one at a time, in list order; the mapper receives the item, its
    index and the length of the list; a rejected step rejects the whole
    promise and starts no later step; otherwise the promise is fulfilled with
    the array of results. *)
Fixpoint Promise_map_from {A B} (mapper : A -> nat -> nat -> M B)
    (index length : nat) (items : list A) : M (list B) :=
  match items with
  | [] => ret []
  | item :: rest =>
      b <- mapper item index length ;;
      bs <- Promise_map_from mapper (S index) length rest ;;
      ret (b :: bs)
  end.

Definition Promise_map {A B} (items : list A) (mapper : A -> nat -> nat -> M B)
    : M (list B) :=
  Promise_map_from mapper 0 (List.length items) items.

(** Observers with a scalar result. *)
Definition getFile (p : t) : File.t := file p.
Definition getSize (p : t) : Z := size p.
Definition getOriginalSize (p : t) : Z := originalSize p.
Definition isFinished (p : t) : bool := finished p.
Definition isFailed (p : t) : bool := failed p.

Definition _copySourceImage (f : File.t) (w : World) : Completion string * World :=
  let fileExtension := path_extname (File.path f) in
  let newPath := String_replace (File.path f) fileExtension (" (1)" +:+ fileExtension) in
  match fs_copyFileSync (File.path f) newPath w with
  | (Normal _, w') => (Normal newPath, w')
  | (Abrupt ex, w') => (Abrupt ex, w')
  end.

Definition _getPath (f : File.t) (keepSource : bool) (w : World)
    : Completion string * World :=
  if keepSource then (Normal (File.path f), w) else _copySourceImage f w.

Definition _done : M unit :=
  p <- get ;; emit (on_done (size p)).

Definition _failed (ex : Error) : M unit :=
  assign (set_failed true) ;;; emit (on_failed ex).

Definition _finish : M unit :=
  assign (set_finished true) ;;; emit on_finish.

(** The class has no member [_error]: [this._error] is [undefined]. *)
Definition _error : option (Error -> M unit) := None.

Definition invalidFileName (f : File.t) : string :=
  "Invalid file name " +:+ dquote +:+ File.path f +:+ dquote +:+ ".".

Definition libjpegHint : string :=
  "You probably need to install " +:+ dquote +:+ "libjpeg" +:+ dquote
  +:+ " on your computer.".

(** The promise [imagemin(...).then(file => ...)] of [_compressImage],
    before its [.catch]: the new size, or the error of the step. *)
Definition compressAttempt (algorithm : string) : M Z :=
  p <- get ;;
  let plugin := getPlugin (File.type (file p)) algorithm in
  file' <- call (imagemin (path p) (dir p) [plugin]) ;;
  if (file' : bool)
  then call (fs_statSync_size (path p))
  else throw (newError (invalidFileName (file p))).

(** The message recorded for a failed step. *)
Definition recordedMessage (algorithm : string) (ex : Error) : string :=
  if String.eqb algorithm "jpegoptim" && isLibjpegNotFound ex
  then libjpegHint
  else Js.message ex.

Definition _compressImage (algorithm : string) : M Z :=
  catch_ (compressAttempt algorithm)
    (Some (fun ex =>
       let message := recordedMessage algorithm ex in
       assign (push_errors (ErrorRecord.mk algorithm message)) ;;;
       _failed ex ;;;
       p <- get ;;
       ret (size p))).

Definition _createJob (algorithm : string) (index length : nat) : M unit :=
  assign (set_currentAlgorithm (Some (Current.mk algorithm index length))) ;;;
  p <- get ;;
  emit (on_start (currentAlgorithm p)) ;;;
  newSize <- _compressImage algorithm ;;
  p <- get ;;
  (if Z.eqb (size p) newSize
   then ret tt
   else assign (push_finishedAlgorithms algorithm)) ;;;
  assign (set_size newSize) ;;;
  p <- get ;;
  emit (on_end (currentAlgorithm p) (size p)).

(** The fields as the constructor initialises them, [path] being the value
    returned by [this._getPath(keepSource)]. *)
Definition init (f : File.t) (path : string) (algorithms : list string) : t :=
  mk f path (File.size f) (File.size f) (path_resolve (File.path f) "..")
     algorithms None [] false false [].

Definition begin (f : File.t) (path : string) (algorithms : list string)
    (w : World) : Sys :=
  mkSys (init f path algorithms) w [Assigned (init f path algorithms)].

(** The promise chain that ends the constructor. *)
Definition chain (algorithms : list string) : M unit :=
  finally_
    (catch_ (then_ (Promise_map algorithms _createJob) (fun _ => _done)) _error)
    _finish.

(** The constructor once [this._getPath(keepSource)] has returned [path]:
    the settled promise chain and the run at its end. *)
Definition run (f : File.t) (path : string) (algorithms : list string)
    (w : World) : Completion unit * Sys :=
  chain algorithms (begin f path algorithms w).

(** [new Process(file, algorithms, keepSource)]; it throws when the copy of
    the source image does. *)
Definition constructor (f : File.t) (algorithms : list string)
    (keepSource : bool) (w : World) : Completion (Completion unit * Sys) :=
  match _getPath f keepSource w with
  | (Normal path, w') => Normal (run f path algorithms w')
  | (Abrupt ex, _) => Abrupt ex
  end.

End WithHost.
End Process.

(** ** The instance as an object in the store

    The observers that return an array or an object are read against a
    store of objects with identity, where a value is either a primitive or
    a reference, so that "the same array" and "a copy of it" differ. *)

Module Store.

Definition loc : Type := nat.

Inductive Value : Type :=
| VUndefined
| VNull
| VBool (b : bool)
| VNum (n : Z)
| VStr (s : string)
| VRef (l : loc).

Inductive Object : Type :=
| Array (elements : list Value)
| Props (properties : list (string * Value)).  (* own properties, in creation order *)

(** The store: the object at reference [l] is the [l]-th one allocated. *)
Abbreviation Heap := (list Object).

Definition alloc (o : Object) (h : Heap) : Value * Heap :=
  (VRef (List.length h), h ++ [o]).

Fixpoint assoc (key : string) (ps : list (string * Value)) : option Value :=
  match ps with
  | [] => None
  | (k, v) :: ps' => if String.eqb key k then Some v else assoc key ps'
  end.

(** [o.key] for an ordinary object [o]; an absent property reads [undefined]. *)
Definition getProp (h : Heap) (l : loc) (key : string) : option Value :=
  match h !! l with
  | Some (Props ps) => Some (default VUndefined (assoc key ps))
  | _ => None
  end.

(** [[...v]] for an array [v]. Anything else is outside the model. *)
Definition spreadArray (h : Heap) (v : Value) : option (Value * Heap) :=
  match v with
  | VRef l =>
      match h !! l with
      | Some (Array es) => Some (alloc (Array es) h)
      | _ => None
      end
  | _ => None
  end.

(** [({ ...v })]: a fresh object with the own properties of [v]; none when
    [v] is [null], [undefined], a number or a boolean. Spreading a string or
    an array is outside the model. *)
Definition spreadObject (h : Heap) (v : Value) : option (Value * Heap) :=
  match v with
  | VRef l =>
      match h !! l with
      | Some (Props ps) => Some (alloc (Props ps) h)
      | _ => None
      end
  | VStr _ => None
  | VUndefined | VNull | VBool _ | VNum _ => Some (alloc (Props []) h)
  end.

(** [v.push(x)] *)
Definition push (h : Heap) (v x : Value) : option Heap :=
  match v with
  | VRef l =>
      match h !! l with
      | Some (Array es) => Some (<[l := Array (es ++ [x])]> h)
      | _ => None
      end
  | _ => None
  end.

(** The four observers of the source that return an array or an object;
    [this] is the reference of the instance. *)
Definition getAlgorithms (h : Heap) (this : loc) : option (Value * Heap) :=
  v ← getProp h this "algorithms"; spreadArray h v.

Definition getCurrentAlgorithm (h : Heap) (this : loc) : option (Value * Heap) :=
  v ← getProp h this "currentAlgorithm"; spreadObject h v.

Definition getErrors (h : Heap) (this : loc) : option (Value * Heap) :=
  v ← getProp h this "errors"; Some (v, h).

Definition getFinishedAlgorithms (h : Heap) (this : loc) : option (Value * Heap) :=
  v ← getProp h this "finishedAlgorithms"; spreadArray h v.

(** *** Reading an instance out of the store *)

Definition asStr (v : Value) : option string :=
  match v with VStr s => Some s | _ => None end.

Definition asNum (v : Value) : option Z :=
  match v with VNum n => Some n | _ => None end.

Definition asIndex (v : Value) : option nat :=
  match v with
  | VNum n => if (0 <=? n)%Z then Some (Z.to_nat n) else None
  | _ => None
  end.

Definition asBool (v : Value) : option bool :=
  match v with VBool b => Some b | _ => None end.

Definition readStrings (h : Heap) (v : Value) : option (list string) :=
  match v with
  | VRef l =>
      match h !! l with
      | Some (Array es) => mapM asStr es
      | _ => None
      end
  | _ => None
  end.

Definition readFile (h : Heap) (v : Value) : option File.t :=
  match v with
  | VRef l =>
      p ← getProp h l "path" ≫= asStr;
      t ← getProp h l "type" ≫= asStr;
      n ← getProp h l "size" ≫= asNum;
      Some (File.mk p t n)
  | _ => None
  end.

Definition readCurrent (h : Heap) (v : Value) : option (option Current.t) :=
  match v with
  | VNull => Some None
  | VRef l =>
      a ← getProp h l "algorithm" ≫= asStr;
      i ← getProp h l "index" ≫= asIndex;
      n ← getProp h l "length" ≫= asIndex;
      Some (Some (Current.mk a i n))
  | _ => None
  end.

Definition readErrorRecord (h : Heap) (v : Value) : option ErrorRecord.t :=
  match v with
  | VRef l =>
      a ← getProp h l "algorithm" ≫= asStr;
      m ← getProp h l "message" ≫= asStr;
      Some (ErrorRecord.mk a m)
  | _ => None
  end.

Definition readErrors (h : Heap) (v : Value) : option (list ErrorRecord.t) :=
  match v with
  | VRef l =>
      match h !! l with
      | Some (Array es) => mapM (readErrorRecord h) es
      | _ => None
      end
  | _ => None
  end.

(** The instance at reference [this], field by field. *)
Definition decode (h : Heap) (this : loc) : option Process.t :=
  file ← getProp h this "file" ≫= readFile h;
  path ← getProp h this "path" ≫= asStr;
  originalSize ← getProp h this "originalSize" ≫= asNum;
  size ← getProp h this "size" ≫= asNum;
  dir ← getProp h this "dir" ≫= asStr;
  algorithms ← getProp h this "algorithms" ≫= readStrings h;
  currentAlgorithm ← getProp h this "currentAlgorithm" ≫= readCurrent h;
  finishedAlgorithms ← getProp h this "finishedAlgorithms" ≫= readStrings h;
  finished ← getProp h this "finished" ≫= asBool;
  failed ← getProp h this "failed" ≫= asBool;
  errors ← getProp h this "errors" ≫= readErrors h;
  Some (Process.mk file path originalSize size dir algorithms currentAlgorithm
          finishedAlgorithms finished failed errors).

(** *** Writing an instance into the store *)

Definition currentProps (c : Current.t) : list (string * Value) :=
  [("algorithm", VStr (Current.algorithm c));
   ("index", VNum (Z.of_nat (Current.index c)));
   ("length", VNum (Z.of_nat (Current.length c)))].

Definition errorProps (e : ErrorRecord.t) : list (string * Value) :=
  [("algorithm", VStr (ErrorRecord.algorithm e));
   ("message", VStr (ErrorRecord.message e))].

Fixpoint allocAll (os : list Object) (h : Heap) : list Value * Heap :=
  match os with
  | [] => ([], h)
  | o :: os' =>
      let (v, h1) := alloc o h in
      let (vs, h2) := allocAll os' h1 in
      (v :: vs, h2)
  end.

(** Allocates the objects of [p], each array and record on its own, and
    returns the reference of the instance. *)
Definition store (p : Process.t) (h : Heap) : loc * Heap :=
  let f := Process.file p in
  let (vfile, h1) :=
    alloc (Props [("path", VStr (File.path f)); ("type", VStr (File.type f));
                  ("size", VNum (File.size f))]) h in
  let (valgs, h2) := alloc (Array (map VStr (Process.algorithms p))) h1 in
  let (vcur, h3) :=
    match Process.currentAlgorithm p with
    | None => (VNull, h2)
    | Some c => alloc (Props (currentProps c)) h2
    end in
  let (vfin, h4) := alloc (Array (map VStr (Process.finishedAlgorithms p))) h3 in
  let (recs, h5) := allocAll (map (fun e => Props (errorProps e)) (Process.errors p)) h4 in
  let (verrs, h6) := alloc (Array recs) h5 in
  (List.length h6,
   h6 ++ [Props [("file", vfile); ("path", VStr (Process.path p));
                 ("originalSize", VNum (Process.originalSize p));
                 ("size", VNum (Process.size p));
                 ("dir", VStr (Process.dir p));
                 ("algorithms", valgs);
                 ("currentAlgorithm", vcur);
                 ("finishedAlgorithms", vfin);
                 ("finished", VBool (Process.finished p));
                 ("failed", VBool (Process.failed p));
                 ("errors", verrs)]]).

End Store.

(** ** Vocabulary of the statements *)

(** The four media families, in the order [getPlugin] tries them. *)
Inductive Family : Type := JPEG | PNG | SVG | GIF.

Definition rank (f : Family) : nat :=
  match f with JPEG => 0 | PNG => 1 | SVG => 2 | GIF => 3 end.

(** The patterns [getPlugin] tests for a family. *)
Definition patterns (f : Family) : list string :=
  match f with
  | JPEG => ["image/jpg"; "image/jpeg"]
  | PNG => ["image/png"]
  | SVG => ["image/svg"; "image/svg+xml"]
  | GIF => ["image/gif"]
  end.

(** The members of a family, as the table of the engine selector lists them. *)
Definition members (f : Family) : list string :=
  match f with
  | JPEG => ["jpegoptim"; "jpegtran"; "mozjpeg"]
  | PNG => ["advpng"; "optipng"; "pngcrush"; "pngout"; "zopfli"]
  | SVG => ["svgo"]
  | GIF => ["giflossy"; "gifsicle"]
  end.

(** The media type contains one of the patterns of the family. *)
Definition MatchesFamily (f : Family) (mediaType : string) : Prop :=
  exists pat, pat ∈ patterns f /\ Found (Lit pat) mediaType.

(** [f] is the first family, in the order of [rank], that the media type
    matches. *)
Definition Selects (mediaType : string) (f : Family) : Prop :=
  MatchesFamily f mediaType
  /\ forall g, (rank g < rank f)%nat -> ~ MatchesFamily g mediaType.

Definition isOperation (r : PluginResult) : Prop := exists p, r = plugin p.

(** The signature [isLibjpegNotFound] looks for, in words: the code contains
    EPIPE, or the message contains "Library not loaded:", then at least one
    character, none of them a line terminator, then "libjpeg". *)
Definition LibjpegNotFound (ex : Error) : Prop :=
  (exists pre post, ToString (code ex) = pre +:+ "EPIPE" +:+ post)
  \/ (exists pre mid post,
        message ex = pre +:+ "Library not loaded:" +:+ mid +:+ "libjpeg" +:+ post
        /\ mid <> EmptyString
        /\ forall c, In c (list_ascii_of_string mid) -> isLineTerminator c = false).

Section Steps.
Context {host : Host}.
Import Process.

(** The run after its first [k] steps. *)
Definition afterSteps (f : File.t) (path : string) (algorithms : list string)
    (w : World) (k : nat) : Sys :=
  snd (Promise_map_from _createJob 0 (List.length algorithms)
         (take k algorithms) (begin f path algorithms w)).

(** The outcome of step [k], whose algorithm is [a]: the completion of the
    promise that [_compressImage] guards with its [.catch], the run being
    where its first [k] steps left it. *)
Definition outcome (f : File.t) (path : string) (algorithms : list string)
    (w : World) (k : nat) (a : string) : Completion Z :=
  fst (compressAttempt a (afterSteps f path algorithms w k)).

(** No successful step of the run measures a larger file than it found. *)
Definition NeverGrows (f : File.t) (path : string) (algorithms : list string)
    (w : World) : Prop :=
  forall k a m,
    algorithms !! k = Some a ->
    outcome f path algorithms w k a = Normal m ->
    m <= size (this (afterSteps f path algorithms w k)).

(** What [compressAttempt] asks of the host, for the instance [p] in the
    world [w]: the completion and the world left behind. *)
Definition attempt (a : string) (p : t) (w : World) : Completion Z * World :=
  match imagemin (path p) (dir p) [getPlugin (File.type (file p)) a] w with
  | (Normal true, w') => fs_statSync_size (path p) w'
  | (Normal false, w') => (Abrupt (newError (invalidFileName (file p))), w')
  | (Abrupt ex, w') => (Abrupt ex, w')
  end.

(** One step, spelled out: the instance once [_createJob a i n] is over,
    having started from [p] with the attempt completing as [c]. *)
Definition stepInstance (a : string) (i n : nat) (p : t) (c : Completion Z) : t :=
  let pc := set_currentAlgorithm (Some (Current.mk a i n)) p in
  match c with
  | Normal m =>
      set_size m (if Z.eqb (size pc) m then pc else push_finishedAlgorithms a pc)
  | Abrupt ex =>
      let pf :=
        set_failed true
          (push_errors (ErrorRecord.mk a (recordedMessage a ex)) pc) in
      set_size (size pf) pf
  end.

(** One step, spelled out: what it adds to the trace. *)
Definition stepTrace (a : string) (i n : nat) (p : t) (c : Completion Z) : list Obs :=
  let cur := Some (Current.mk a i n) in
  let pc := set_currentAlgorithm cur p in
  match c with
  | Normal m =>
      [Assigned pc; Emitted (on_start cur)]
      ++ (if Z.eqb (size pc) m then []
          else [Assigned (push_finishedAlgorithms a pc)])
      ++ [Assigned (stepInstance a i n p c); Emitted (on_end cur m)]
  | Abrupt ex =>
      let pe := push_errors (ErrorRecord.mk a (recordedMessage a ex)) pc in
      let pf := set_failed true pe in
      [Assigned pc; Emitted (on_start cur); Assigned pe; Assigned pf;
       Emitted (on_failed ex); Assigned (stepInstance a i n p c);
       Emitted (on_end cur (size pf))]
  end.

(** The step events of a trace: the bracket around each step. *)
Definition isStepEvent (o : Obs) : bool :=
  match o with
  | Emitted (on_start _) | Emitted (on_end _ _) => true
  | _ => false
  end.

(** The two step events of step [k], whose algorithm is [a]. *)
Definition bracket (f : File.t) (path : string) (algorithms : list string)
    (w : World) (k : nat) (a : string) : list Obs :=
  let cur := Some (Current.mk a k (List.length algorithms)) in
  [Emitted (on_start cur);
   Emitted (on_end cur (size (this (afterSteps f path algorithms w (S k)))))].

(** The step events of the whole run, step after step. *)
Definition brackets (f : File.t) (path : string) (algorithms : list string)
    (w : World) : list Obs :=
  concat (imap (bracket f path algorithms w) algorithms).

Definition isFinish (o : Obs) : bool :=
  match o with
  | Emitted on_finish => true
  | _ => false
  end.

Definition isFailedEvent (o : Obs) : bool :=
  match o with
  | Emitted (on_failed _) => true
  | _ => false
  end.

(** The size of the instance is at most its original size. *)
Definition withinOriginal (o : Obs) : Prop :=
  match o with
  | Assigned p => size p <= originalSize p
  | Emitted _ => True
  end.

(** Before the run has failed: the flag is down and no [failed] event is out. *)
Definition notYetFailed (o : Obs) : Prop :=
  match o with
  | Assigned p => failed p = false
  | Emitted (on_failed _) => False
  | Emitted _ => True
  end.

(** From the first failure on: the flag is up in every state. *)
Definition failedFromHere (o : Obs) : Prop :=
  match o with
  | Assigned p => failed p = true
  | Emitted _ => True
  end.

(** While the run is under way: [finished] is down, and neither [done] nor
    [finish] is out. *)
Definition underWay (o : Obs) : Prop :=
  match o with
  | Assigned p => finished p = false
  | Emitted (on_done _) | Emitted on_finish => False
  | Emitted _ => True
  end.

End Steps.

(** ** A scripted host, for concrete runs *)

Module Scripted.

(** What the next call of [imagemin] does to the working file. *)
Inductive Outcome : Type :=
| Writes (n : Z)         (* rewrites the file, which then has [n] bytes *)
| Rejects (ex : Error)   (* rejects, the file untouched *)
| NoFile.                (* fulfils with a falsy value *)

(** The calls of [imagemin] still to come, and the size of the working file. *)
Definition world : Type := list Outcome * Z.

Definition isPlugin (r : PluginResult) : bool :=
  match r with plugin _ => true | _ => false end.

Definition run_imagemin (input output : string) (plugins : list PluginResult)
    (w : world) : Completion bool * world :=
  if forallb isPlugin plugins then
    match w with
    | (Writes n :: rest, _) => (Normal true, (rest, n))
    | (Rejects ex :: rest, n) => (Abrupt ex, (rest, n))
    | (NoFile :: rest, n) => (Normal false, (rest, n))
    | ([], n) => (Normal true, ([], n))
    end
  else (Abrupt (mkError None "Expected a plugin function"), (tl (fst w), snd w)).

Definition host : Host := {|
  World := world;
  path_extname := fun _ => EmptyString;
  path_resolve := fun p q => p +:+ "/" +:+ q;
  String_replace := fun s _ replacement => replacement +:+ s;
  fs_copyFileSync := fun _ _ w => (Normal tt, w);
  fs_statSync_size := fun _ w => (Normal (snd w), w);
  imagemin := run_imagemin;
|}.

Definition photo : File.t := File.mk "/tmp/photo.jpg" "image/jpeg" 1000.

Definition epipe : Error := mkError (Some "EPIPE") "write EPIPE".

Definition crash : Error := mkError None "spawn ENOENT".

Definition jpegAlgorithms : list string := ["jpegoptim"; "jpegtran"; "mozjpeg"].

(** The first tool is missing its library, the second shrinks the file to
    800 bytes, the third leaves it as it is. *)
Definition mixed : world := ([Rejects epipe; Writes 800; Writes 800], 1000).

(** The tool writes a file larger than the one it was given. *)
Definition growing : world := ([Writes 1200], 1000).

(** The first tool shrinks the file, the second crashes, the third shrinks
    the file further. *)
Definition secondFails : world := ([Writes 800; Rejects crash; Writes 700], 1000).

(** The instance at the end of the run of [jpegAlgorithms] in [mixed]. *)
Definition mixedEnd : Process.t :=
  Process.this
    (snd (Process.run (host := host) photo "/tmp/photo.jpg" jpegAlgorithms mixed)).

(** An error record that no step of any run produced. *)
Definition forged : ErrorRecord.t := ErrorRecord.mk "optipng" "never happened".

End Scripted.

(** ** Further vocabulary *)

(** The engine [getPlugin] asks for a family. *)
Definition engineOf (f : Family) (algorithm : string) : PluginResult :=
  match f with
  | JPEG => engineJpg algorithm
  | PNG => enginePng algorithm
  | SVG => engineSvg algorithm
  | GIF => engineGif algorithm
  end.

Section MoreSteps.
Context {host : Host}.
Import Process.

(** What a run is given and never assigns again: the file, the working
    path, the original size, the directory and the list of algorithms. *)
Definition keepsGivens (f : File.t) (path : string) (algorithms : list string)
    (o : Obs) : Prop :=
  match o with
  | Assigned p =>
      file p = f /\ Process.path p = path /\ originalSize p = File.size f
      /\ dir p = path_resolve (File.path f) ".."
      /\ Process.algorithms p = algorithms
  | Emitted _ => True
  end.

(** The promise chain of the constructor, for any promise in the place of
    [Promise.map(algorithms, this._createJob, { concurrency: 1 })]:
    [steps.then(this._done).catch(this._error).finally(this._finish)]. *)
Definition settle (steps : M (list unit)) : M unit :=
  finally_ (catch_ (then_ steps (fun _ => _done)) _error) _finish.

End MoreSteps.

Module MoreScripted.
Import Scripted.

(** Every tool fails. *)
Definition allFail : world := ([Rejects epipe; Rejects crash; Rejects crash], 1000).

(** Every tool shrinks the file. *)
Definition allShrink : world := ([Writes 900; Writes 800; Writes 700], 1000).

(** The first tool shrinks the file and the others fail. *)
Definition onlyFirstWorks : world := ([Writes 800; Rejects crash; Rejects crash], 1000).

(** The copy of the source image fails. *)
Definition readOnly : Host := {|
  World := world;
  path_extname := fun _ => ".jpg";
  path_resolve := fun p q => p +:+ "/" +:+ q;
  String_replace := fun s _ replacement => s +:+ replacement;
  fs_copyFileSync := fun _ _ w => (Abrupt (mkError (Some "EACCES") "permission denied"), w);
  fs_statSync_size := fun _ w => (Normal (snd w), w);
  imagemin := run_imagemin;
|}.

End MoreScripted.

(** * Properties *)

(** ** Regular expressions *)

Module JsFacts.
Import Js.

Lemma append_nil_l (s : string) : EmptyString +:+ s = s.
Proof. reflexivity. Qed.

Lemma append_cons (a : ascii) (s t : string) :
  String a s +:+ t = String a (s +:+ t).
Proof. reflexivity. Qed.

Lemma append_nil_r (s : string) : s +:+ EmptyString = s.
Proof. induction s as [|a s IH]; [reflexivity|]. rewrite append_cons, IH. reflexivity. Qed.

Lemma append_assoc (s t u : string) : (s +:+ t) +:+ u = s +:+ (t +:+ u).
Proof.
  induction s as [|a s IH]; [reflexivity|].
  rewrite !append_cons, IH. reflexivity.
Qed.

Lemma strip_spec (lit s s' : string) :
  strip lit s = Some s' <-> s = lit +:+ s'.
Proof.
  revert s. induction lit as [|a lit IH]; intros s; simpl.
  - rewrite append_nil_l. split; congruence.
  - rewrite append_cons. destruct s as [|b s].
    + split; discriminate.
    + destruct (Ascii.eqb_spec a b) as [->|Hne].
      * rewrite IH. split; congruence.
      * split; [discriminate|]. intros [= Hab _]. congruence.
Qed.

Lemma anyPlusK_spec (k : string -> bool) (s : string) :
  anyPlusK k s = true <->
  exists w s', s = w +:+ s' /\ Matches AnyPlus w /\ k s' = true.
Proof.
  induction s as [|c s IH]; simpl.
  - split; [discriminate|].
    intros (w & s' & Hs & Hw & _). inversion Hw; subst; discriminate.
  - rewrite andb_true_iff, orb_true_iff, IH. split.
    + intros [Hc [Hk | (w & s' & -> & Hw & Hk)]].
      * exists (String c EmptyString), s. repeat split; auto using MAnyOne.
      * exists (String c w), s'. repeat split; auto using MAnyMore.
    + intros (w & s' & Hs & Hw & Hk).
      inversion Hw as [| c' Hc | c' w' Hc Hw' | ]; subst;
        rewrite append_cons in Hs; injection Hs as -> ->; (split; [exact Hc|]).
      * left. exact Hk.
      * right. exists w', s'. auto.
Qed.

Lemma matchK_spec (r : regex) (k : string -> bool) (s : string) :
  matchK r k s = true <->
  exists w s', s = w +:+ s' /\ Matches r w /\ k s' = true.
Proof.
  revert k s. induction r as [lit | | r1 IH1 r2 IH2]; intros k s; simpl.
  - destruct (strip lit s) as [s'|] eqn:E.
    + apply strip_spec in E. split.
      * intros Hk. exists lit, s'. auto using MLit.
      * intros (w & s'' & Hs & Hw & Hk). inversion Hw; subst.
        apply String.app_inj in Hs. congruence.
    + split; [discriminate|].
      intros (w & s'' & Hs & Hw & Hk). inversion Hw; subst.
      assert (strip w (w +:+ s'') = Some s'') as E' by (apply strip_spec; reflexivity).
      congruence.
  - apply anyPlusK_spec.
  - rewrite IH1. split.
    + intros (w1 & s1 & -> & Hw1 & Hk). apply IH2 in Hk as (w2 & s2 & -> & Hw2 & Hk).
      exists (w1 +:+ w2), s2. rewrite append_assoc. auto using MCat.
    + intros (w & s' & -> & Hw & Hk). inversion Hw; subst.
      exists w1, (w2 +:+ s'). rewrite append_assoc. repeat split; auto.
      apply IH2. exists w2, s'. auto.
Qed.

Theorem RegExp_test_spec (r : regex) (s : string) :
  RegExp_test r s = true <-> Found r s.
Proof.
  unfold Found. induction s as [|c s IH]; simpl.
  - rewrite orb_false_r, matchK_spec. split.
    + intros (w & s' & Hs & Hw & _). exists EmptyString, w, s'. auto.
    + intros (pre & w & post & Hs & Hw).
      destruct pre; [|discriminate]. exists w, post. auto.
  - rewrite orb_true_iff, matchK_spec, IH. split.
    + intros [(w & s' & Hs & Hw & _) | (pre & w & post & -> & Hw)].
      * exists EmptyString, w, s'. auto.
      * exists (String c pre), w, post. auto.
    + intros (pre & w & post & Hs & Hw). destruct pre as [|a pre].
      * left. exists w, post. auto.
      * right. rewrite append_cons in Hs. injection Hs as -> ->.
        exists pre, w, post. auto.
Qed.

End JsFacts.

Module SelectorFacts.
Import Js JsFacts.

Lemma Matches_Lit (lit w : string) : Matches (Lit lit) w <-> w = lit.
Proof. split; [inversion 1; reflexivity | intros ->; constructor]. Qed.

Lemma Found_Lit (lit s : string) :
  Found (Lit lit) s <-> exists pre post, s = pre +:+ lit +:+ post.
Proof.
  unfold Found. split.
  - intros (pre & w & post & -> & ->%Matches_Lit). eauto.
  - intros (pre & post & ->). exists pre, lit, post. split; [reflexivity | constructor].
Qed.

Lemma Matches_AnyPlus (w : string) :
  Matches AnyPlus w <->
  w <> EmptyString
  /\ forall c, In c (list_ascii_of_string w) -> isLineTerminator c = false.
Proof.
  split.
  - remember AnyPlus as r eqn:Er. induction 1 as [ | c Hc | c w Hc Hw IH | ];
      try discriminate; (split; [discriminate|]); simpl.
    + intros c' [<- | []]. unfold dot in Hc. now apply negb_true_iff in Hc.
    + intros c' [<- | Hin].
      * unfold dot in Hc. now apply negb_true_iff in Hc.
      * now apply (proj2 (IH Er)).
  - intros [Hne Hall]. induction w as [|c w IH]; [congruence|].
    assert (dot c = true) as Hc.
    { unfold dot. apply negb_true_iff, Hall. now left. }
    destruct w as [|c' w'].
    + now constructor.
    + apply MAnyMore; [exact Hc|]. apply IH; [discriminate|].
      intros c0 Hin. apply Hall. now right.
Qed.

(** [isLibjpegNotFound] decides the signature [LibjpegNotFound]. *)
Lemma isLibjpegNotFound_spec (ex : Error) :
  isLibjpegNotFound ex = true <-> LibjpegNotFound ex.
Proof.
  unfold isLibjpegNotFound, LibjpegNotFound.
  rewrite orb_true_iff, !RegExp_test_spec, Found_Lit.
  apply or_iff_compat_l. unfold Found. split.
  - intros (pre & w & post & Hs & Hw).
    inversion Hw as [ | | | r1 r2 w1 w2 Hw1 Hw2]; subst.
    inversion Hw2 as [ | | | r1 r2 mid w3 Hmid Hw3]; subst.
    apply Matches_Lit in Hw1 as ->. apply Matches_Lit in Hw3 as ->.
    apply Matches_AnyPlus in Hmid as [Hne Hall].
    exists pre, mid, post. rewrite Hs, !append_assoc. auto.
  - intros (pre & mid & post & Hs & Hne & Hall).
    exists pre, ("Library not loaded:" +:+ mid +:+ "libjpeg"), post. split.
    + rewrite Hs, !append_assoc. reflexivity.
    + apply MCat; [constructor|]. apply MCat; [|constructor].
      now apply Matches_AnyPlus.
Qed.

Lemma test_Lit (lit s : string) :
  RegExp_test (Lit lit) s = true <-> Found (Lit lit) s.
Proof. apply RegExp_test_spec. Qed.

Lemma MatchesFamily_JPEG (t : string) :
  MatchesFamily JPEG t <->
  RegExp_test (Lit "image/jpg") t || RegExp_test (Lit "image/jpeg") t = true.
Proof.
  unfold MatchesFamily. rewrite orb_true_iff, !test_Lit. simpl. split.
  - intros (pat & Hin & Hf). rewrite !elem_of_cons, elem_of_nil in Hin.
    destruct Hin as [-> | [-> | []]]; auto.
  - intros [H | H]; eexists; (split; [|exact H]); rewrite !elem_of_cons; auto.
Qed.

Lemma MatchesFamily_PNG (t : string) :
  MatchesFamily PNG t <-> RegExp_test (Lit "image/png") t = true.
Proof.
  unfold MatchesFamily. rewrite test_Lit. simpl. split.
  - intros (pat & Hin & Hf). rewrite !elem_of_cons, elem_of_nil in Hin.
    destruct Hin as [-> | []]; auto.
  - intros H; eexists; (split; [|exact H]); rewrite !elem_of_cons; auto.
Qed.

Lemma MatchesFamily_SVG (t : string) :
  MatchesFamily SVG t <->
  RegExp_test (Lit "image/svg") t || RegExp_test (Lit "image/svg+xml") t = true.
Proof.
  unfold MatchesFamily. rewrite orb_true_iff, !test_Lit. simpl. split.
  - intros (pat & Hin & Hf). rewrite !elem_of_cons, elem_of_nil in Hin.
    destruct Hin as [-> | [-> | []]]; auto.
  - intros [H | H]; eexists; (split; [|exact H]); rewrite !elem_of_cons; auto.
Qed.

Lemma MatchesFamily_GIF (t : string) :
  MatchesFamily GIF t <-> RegExp_test (Lit "image/gif") t = true.
Proof.
  unfold MatchesFamily. rewrite test_Lit. simpl. split.
  - intros (pat & Hin & Hf). rewrite !elem_of_cons, elem_of_nil in Hin.
    destruct Hin as [-> | []]; auto.
  - intros H; eexists; (split; [|exact H]); rewrite !elem_of_cons; auto.
Qed.

Ltac by_name a :=
  repeat match goal with
  | |- context [String.eqb a ?lit] =>
      destruct (String.eqb_spec a lit) as [-> | ?]
  end.

Ltac engine_members a :=
  unfold isOperation, members; by_name a;
  rewrite ?elem_of_cons, elem_of_nil;
  (split; [intros [p Hp]; try discriminate; tauto | intros Hin; eauto; tauto]).

Lemma engineJpg_members (a : string) :
  isOperation (engineJpg a) <-> a ∈ members JPEG.
Proof.
  unfold engineJpg. engine_members a.
Qed.

Lemma enginePng_members (a : string) :
  isOperation (enginePng a) <-> a ∈ members PNG.
Proof.
  unfold enginePng. engine_members a.
Qed.

Lemma engineSvg_members (a : string) :
  isOperation (engineSvg a) <-> a ∈ members SVG.
Proof.
  unfold engineSvg. engine_members a.
Qed.

Lemma engineGif_members (a : string) :
  isOperation (engineGif a) <-> a ∈ members GIF.
Proof.
  unfold engineGif. engine_members a.
Qed.

End SelectorFacts.

(** ** Engine selector *)

Section Selector.
Import Js JsFacts SelectorFacts.

Lemma MatchesFamily_test (f : Family) (t : string) :
  MatchesFamily f t <->
  match f with
  | JPEG => RegExp_test (Lit "image/jpg") t || RegExp_test (Lit "image/jpeg") t
  | PNG => RegExp_test (Lit "image/png") t
  | SVG => RegExp_test (Lit "image/svg") t || RegExp_test (Lit "image/svg+xml") t
  | GIF => RegExp_test (Lit "image/gif") t
  end = true.
Proof.
  destruct f; [apply MatchesFamily_JPEG | apply MatchesFamily_PNG
              | apply MatchesFamily_SVG | apply MatchesFamily_GIF].
Qed.

Lemma engines_never_undefined (a : string) :
  engineJpg a <> undefined /\ enginePng a <> undefined
  /\ engineSvg a <> undefined /\ engineGif a <> undefined.
Proof.
  unfold engineJpg, enginePng, engineSvg, engineGif.
  repeat split; by_name a; discriminate.
Qed.

Lemma engine_of_family (f : Family) (a : string) :
  isOperation
    match f with
    | JPEG => engineJpg a
    | PNG => enginePng a
    | SVG => engineSvg a
    | GIF => engineGif a
    end <-> a ∈ members f.
Proof.
  destruct f; [apply engineJpg_members | apply enginePng_members
              | apply engineSvg_members | apply engineGif_members].
Qed.

(** [getPlugin] runs the engine of the first family the media type matches. *)
Lemma getPlugin_Selects (t a : string) (f : Family) :
  Selects t f ->
  getPlugin t a =
    match f with
    | JPEG => engineJpg a
    | PNG => enginePng a
    | SVG => engineSvg a
    | GIF => engineGif a
    end.
Proof.
  intros [Hm Hfirst]. unfold getPlugin.
  assert (forall g, (rank g < rank f)%nat ->
            match g with
            | JPEG => RegExp_test (Lit "image/jpg") t || RegExp_test (Lit "image/jpeg") t
            | PNG => RegExp_test (Lit "image/png") t
            | SVG => RegExp_test (Lit "image/svg") t || RegExp_test (Lit "image/svg+xml") t
            | GIF => RegExp_test (Lit "image/gif") t
            end = false) as Hno.
  { intros g Hg. apply not_true_is_false. rewrite <- MatchesFamily_test. now apply Hfirst. }
  apply MatchesFamily_test in Hm.
  destruct f; simpl in Hm.
  - now rewrite Hm.
  - rewrite (Hno JPEG), Hm by (simpl; lia). reflexivity.
  - rewrite (Hno JPEG), (Hno PNG), Hm by (simpl; lia). reflexivity.
  - rewrite (Hno JPEG), (Hno PNG), (Hno SVG), Hm by (simpl; lia). reflexivity.
Qed.

(** Some family is the first one matched, as soon as one is matched. *)
Lemma Selects_exists (t : string) (f : Family) :
  MatchesFamily f t -> exists g, Selects t g.
Proof.
  intros Hf.
  destruct (RegExp_test (Lit "image/jpg") t || RegExp_test (Lit "image/jpeg") t) eqn:EJ.
  { exists JPEG. split; [now apply MatchesFamily_test|]. intros g Hg. destruct g; simpl in Hg; lia. }
  destruct (RegExp_test (Lit "image/png") t) eqn:EP.
  { exists PNG. split; [now apply MatchesFamily_test|].
    intros g Hg. rewrite MatchesFamily_test. destruct g; simpl in Hg; try lia; congruence. }
  destruct (RegExp_test (Lit "image/svg") t || RegExp_test (Lit "image/svg+xml") t) eqn:ES.
  { exists SVG. split; [now apply MatchesFamily_test|].
    intros g Hg. rewrite MatchesFamily_test. destruct g; simpl in Hg; try lia; congruence. }
  exists GIF. split.
  - apply MatchesFamily_test in Hf. apply MatchesFamily_test. destruct f; congruence.
  - intros g Hg. rewrite MatchesFamily_test. destruct g; simpl in Hg; try lia; congruence.
Qed.

Lemma family_or_none (t : string) :
  (exists g, Selects t g) \/ (forall f, ~ MatchesFamily f t).
Proof.
  destruct (RegExp_test (Lit "image/jpg") t || RegExp_test (Lit "image/jpeg") t) eqn:EJ.
  { left. apply (Selects_exists t JPEG). now apply MatchesFamily_test. }
  destruct (RegExp_test (Lit "image/png") t) eqn:EP.
  { left. apply (Selects_exists t PNG). now apply MatchesFamily_test. }
  destruct (RegExp_test (Lit "image/svg") t || RegExp_test (Lit "image/svg+xml") t) eqn:ES.
  { left. apply (Selects_exists t SVG). now apply MatchesFamily_test. }
  destruct (RegExp_test (Lit "image/gif") t) eqn:EG.
  { left. apply (Selects_exists t GIF). now apply MatchesFamily_test. }
  right. intros f. rewrite MatchesFamily_test. destruct f; congruence.
Qed.

Lemma getPlugin_no_family (t a : string) :
  (forall f, ~ MatchesFamily f t) -> getPlugin t a = undefined.
Proof.
  intros Hno. unfold getPlugin.
  pose proof (Hno JPEG) as HJ. pose proof (Hno PNG) as HP.
  pose proof (Hno SVG) as HS. pose proof (Hno GIF) as HG.
  rewrite MatchesFamily_test in HJ, HP, HS, HG.
  apply not_true_is_false in HJ, HP, HS, HG. now rewrite HJ, HP, HS, HG.
Qed.

Lemma isOperation_getPlugin (t a : string) :
  isOperation (getPlugin t a) <-> exists f, Selects t f /\ a ∈ members f.
Proof.
  split.
  - intros Hop.
    destruct (family_or_none t) as [(g & Hg) | Hno].
    + exists g. split; [exact Hg|]. apply engine_of_family.
      now rewrite <- (getPlugin_Selects _ _ _ Hg).
    + rewrite (getPlugin_no_family _ _ Hno) in Hop. destruct Hop; discriminate.
  - intros (f & Hsel & Hin). rewrite (getPlugin_Selects _ _ _ Hsel).
    now apply engine_of_family.
Qed.

(** When the media type matches one family only, that family decides. *)
Lemma getPlugin_single_family (mediaType algorithm : string) :
  (forall f g, MatchesFamily f mediaType -> MatchesFamily g mediaType -> f = g) ->
  isOperation (getPlugin mediaType algorithm) <->
  exists f, MatchesFamily f mediaType /\ algorithm ∈ members f.
Proof.
  intros Huniq.
  rewrite isOperation_getPlugin. split.
  - intros (f & [Hm _] & Hin). eauto.
  - intros (f & Hm & Hin). exists f. split; [|exact Hin].
    split; [exact Hm|]. intros g Hg Hmg.
    rewrite (Huniq g f Hmg Hm) in Hg. lia.
Qed.

(** C6, as amended: for every media type string and algorithm identifier,
    [getPlugin] returns an operation exactly when the algorithm is a member,
    per the table, of the first family (in the order JPEG, PNG, SVG, GIF)
    one of whose patterns occurs in the media type; it returns [undefined]
    exactly when no family matches, and [null] or [undefined] in every case
    that is not an operation; [image/jpg] and [image/jpeg] both select the
    JPEG engine. *)
Theorem getPlugin_first_matching_family (mediaType algorithm : string) :
  (isOperation (getPlugin mediaType algorithm) <->
     exists f, Selects mediaType f /\ algorithm ∈ members f)
  /\ (getPlugin mediaType algorithm = undefined <->
        forall f, ~ MatchesFamily f mediaType)
  /\ (isOperation (getPlugin mediaType algorithm)
      \/ getPlugin mediaType algorithm = null
      \/ getPlugin mediaType algorithm = undefined)
  /\ getPlugin "image/jpg" algorithm = engineJpg algorithm
  /\ getPlugin "image/jpeg" algorithm = engineJpg algorithm.
Proof.
  split; [|split; [|split; [|split; reflexivity]]].
  - apply isOperation_getPlugin.
  - split.
    + intros Hu f Hf. destruct (Selects_exists _ _ Hf) as [g Hg].
      rewrite (getPlugin_Selects _ _ _ Hg) in Hu.
      pose proof (engines_never_undefined algorithm) as (? & ? & ? & ?).
      destruct g; contradiction.
    + apply getPlugin_no_family.
  - destruct (getPlugin mediaType algorithm) as [p | |]; [left; now exists p | auto | auto].
Qed.

(** C6 as stated fails on a media type that matches two families: the
    string below contains a PNG pattern and [optipng] is a PNG member, yet
    the JPEG engine is asked and answers [null]. *)
Lemma getPlugin_two_families_counterexample :
  ~ (forall mediaType algorithm,
       isOperation (getPlugin mediaType algorithm) <->
       exists f, MatchesFamily f mediaType /\ algorithm ∈ members f).
Proof.
  intros H.
  destruct (proj2 (H "image/jpeg,image/png" "optipng")) as [p Hp].
  - exists PNG. split.
    + apply MatchesFamily_test. reflexivity.
    + simpl. rewrite !elem_of_cons. auto.
  - discriminate Hp.
Qed.

End Selector.

(** ** One step and the sequence of steps *)

Section StepFacts.
Context {host : Host}.
Import Process.

Lemma compressAttempt_attempt (a : string) (s : Sys) :
  compressAttempt a s =
    (fst (attempt a (this s) (world s)),
     mkSys (this s) (snd (attempt a (this s) (world s))) (trace s)).
Proof.
  unfold compressAttempt, attempt, then_, get, call, throw. simpl.
  destruct (imagemin _ _ _ _) as [[[|]|ex] w']; simpl; try reflexivity.
  destruct (fs_statSync_size _ _) as [c w'']; reflexivity.
Qed.

(** The attempt reads the file, the path and the directory of the
    instance, and nothing else of it. *)
Lemma attempt_frame (a : string) (p q : t) (w : World) :
  file p = file q -> path p = path q -> dir p = dir q ->
  attempt a p w = attempt a q w.
Proof. unfold attempt. intros -> -> ->. reflexivity. Qed.

(** [_createJob] never rejects, and does what [stepInstance] and
    [stepTrace] spell out. *)
Lemma createJob_step (a : string) (i n : nat) (s : Sys) :
  _createJob a i n s =
    (Normal tt,
     mkSys (stepInstance a i n (this s) (fst (attempt a (this s) (world s))))
           (snd (attempt a (this s) (world s)))
           (trace s ++ stepTrace a i n (this s) (fst (attempt a (this s) (world s))))).
Proof.
  unfold _createJob, _compressImage, _failed, then_, catch_, assign, emit, get, ret.
  rewrite compressAttempt_attempt. cbn [this world trace fst snd].
  rewrite (attempt_frame a (set_currentAlgorithm _ (this s)) (this s)) by reflexivity.
  unfold stepInstance, stepTrace.
  destruct (attempt a (this s) (world s)) as [[m | ex] w']; simpl.
  - destruct (Z.eqb (size (this s)) m); simpl; rewrite <- ?app_assoc; reflexivity.
  - rewrite Z.eqb_refl. simpl. rewrite <- ?app_assoc. reflexivity.
Qed.

Lemma Promise_map_from_cons {B} (mapper : string -> nat -> nat -> M B)
    (i n : nat) (a : string) (l : list string) (s : Sys) (b : B) :
  fst (mapper a i n s) = Normal b ->
  Promise_map_from mapper i n (a :: l) s =
    (match fst (Promise_map_from mapper (S i) n l (snd (mapper a i n s))) with
     | Normal bs => Normal (b :: bs)
     | Abrupt ex => Abrupt ex
     end,
     snd (Promise_map_from mapper (S i) n l (snd (mapper a i n s)))).
Proof.
  intros Hb. simpl. unfold then_, ret.
  destruct (mapper a i n s) as [c s1]. simpl in Hb. subst c. simpl.
  destruct (Promise_map_from mapper (S i) n l s1) as [[bs | ex] s2]; reflexivity.
Qed.

Section Mapped.
Context {B : Type} (mapper : string -> nat -> nat -> M B) (n : nat).
Hypothesis mapper_fulfils : forall a j s, exists b, fst (mapper a j n s) = Normal b.

(** A mapper that never rejects: the mapped promise is fulfilled. *)
Lemma Promise_map_from_fulfils (i : nat) (l : list string) (s : Sys) :
  exists bs, fst (Promise_map_from mapper i n l s) = Normal bs.
Proof.
  revert i s. induction l as [|a l IH]; intros i s.
  - eexists; reflexivity.
  - destruct (mapper_fulfils a i s) as [b Hb].
    rewrite (Promise_map_from_cons _ _ _ _ _ _ _ Hb). simpl.
    destruct (IH (S i) (snd (mapper a i n s))) as [bs ->]. eexists; reflexivity.
Qed.

(** The steps of [l1 ++ l2] are those of [l1], then those of [l2]. *)
Lemma Promise_map_from_app (i : nat) (l1 l2 : list string) (s : Sys) :
  snd (Promise_map_from mapper i n (l1 ++ l2) s) =
  snd (Promise_map_from mapper (i + List.length l1) n l2
         (snd (Promise_map_from mapper i n l1 s))).
Proof.
  revert i s. induction l1 as [|a l1 IH]; intros i s.
  - simpl. rewrite Nat.add_0_r. reflexivity.
  - destruct (mapper_fulfils a i s) as [b Hb].
    rewrite <- app_comm_cons, !(Promise_map_from_cons _ _ _ _ _ _ _ Hb). simpl.
    rewrite IH. replace (i + S (List.length l1))%nat with (S i + List.length l1)%nat by lia.
    reflexivity.
Qed.

End Mapped.

Lemma createJob_fulfils (n : nat) (a : string) (j : nat) (s : Sys) :
  exists b, fst (_createJob a j n s) = Normal b.
Proof. rewrite createJob_step. eexists; reflexivity. Qed.

Section Run.
Variables (f : File.t) (path : string) (algorithms : list string) (w : World).

Local Abbreviation after := (afterSteps f path algorithms w).
Local Abbreviation total := (List.length algorithms).

Lemma afterSteps_0 : after 0%nat = begin f path algorithms w.
Proof. unfold afterSteps. rewrite take_0. reflexivity. Qed.

(** Step [k] takes the run from [after k] to [after (S k)]. *)
Lemma afterSteps_S (k : nat) (a : string) :
  algorithms !! k = Some a ->
  after (S k) =
    mkSys (stepInstance a k total (this (after k)) (outcome f path algorithms w k a))
          (snd (attempt a (this (after k)) (world (after k))))
          (trace (after k)
           ++ stepTrace a k total (this (after k)) (outcome f path algorithms w k a)).
Proof.
  intros Hk. unfold outcome. rewrite compressAttempt_attempt. cbn [fst].
  unfold afterSteps at 1. rewrite (take_S_r _ _ _ Hk).
  rewrite (Promise_map_from_app _ _ (createJob_fulfils total)).
  fold (after k). rewrite length_take_le by (apply lookup_lt_Some in Hk; lia).
  simpl. unfold then_, ret. rewrite createJob_step. reflexivity.
Qed.

Lemma outcome_attempt (k : nat) (a : string) :
  outcome f path algorithms w k a = fst (attempt a (this (after k)) (world (after k))).
Proof. unfold outcome. rewrite compressAttempt_attempt. reflexivity. Qed.

(** The whole run: the steps, then [done], then [finish]; the promise chain
    is fulfilled. *)
Lemma run_eq :
  run f path algorithms w =
    (Normal tt,
     mkSys (set_finished true (this (after total)))
           (world (after total))
           (trace (after total)
            ++ [Emitted (on_done (size (this (after total))));
                Assigned (set_finished true (this (after total)));
                Emitted on_finish])).
Proof.
  unfold run, chain, finally_, catch_, then_, Promise_map, _done, _finish, _error.
  unfold afterSteps. rewrite firstn_all.
  destruct (Promise_map_from_fulfils _ _ (createJob_fulfils total) 0 algorithms
              (begin f path algorithms w)) as [bs Hbs].
  destruct (Promise_map_from _createJob 0 total algorithms (begin f path algorithms w))
    as [c s]. simpl in Hbs. subst c. simpl.
  rewrite <- !app_assoc. reflexivity.
Qed.

(** Induction along the steps of the run. *)
Lemma steps_ind (P : nat -> Prop) :
  P 0%nat ->
  (forall k a, algorithms !! k = Some a -> P k -> P (S k)) ->
  forall k, (k <= total)%nat -> P k.
Proof.
  intros H0 HS. induction k as [|k IH]; intros Hk; [exact H0|].
  destruct (lookup_lt_is_Some_2 algorithms k) as [a Ha]; [lia|].
  apply (HS k a Ha). apply IH. lia.
Qed.

(** What no step touches. *)
Lemma steps_frame (k : nat) :
  (k <= total)%nat ->
  file (this (after k)) = f
  /\ Process.path (this (after k)) = path
  /\ originalSize (this (after k)) = File.size f
  /\ Process.algorithms (this (after k)) = algorithms
  /\ finished (this (after k)) = false.
Proof.
  revert k. apply steps_ind.
  - rewrite afterSteps_0. repeat split.
  - intros k a Ha IH. rewrite (afterSteps_S k a Ha). cbn [this].
    unfold stepInstance. destruct (outcome f path algorithms w k a) as [m | ex];
      [destruct (Z.eqb _ m)|]; exact IH.
Qed.

(** The size after a step, by the outcome of the step. *)
Lemma size_after_step (k : nat) (a : string) :
  algorithms !! k = Some a ->
  size (this (after (S k))) =
    match outcome f path algorithms w k a with
    | Normal m => m
    | Abrupt _ => size (this (after k))
    end.
Proof.
  intros Ha. rewrite (afterSteps_S k a Ha). cbn [this]. unfold stepInstance.
  destruct (outcome f path algorithms w k a) as [m | ex]; reflexivity.
Qed.

(** The completed algorithms after a step, by the outcome of the step. *)
Lemma finishedAlgorithms_after_step (k : nat) (a : string) :
  algorithms !! k = Some a ->
  finishedAlgorithms (this (after (S k))) =
    finishedAlgorithms (this (after k))
    ++ match outcome f path algorithms w k a with
       | Normal m => if Z.eqb (size (this (after k))) m then [] else [a]
       | Abrupt _ => []
       end.
Proof.
  intros Ha. rewrite (afterSteps_S k a Ha). cbn [this]. unfold stepInstance.
  destruct (outcome f path algorithms w k a) as [m | ex]; simpl.
  - destruct (Z.eqb _ m); simpl; [rewrite app_nil_r|]; reflexivity.
  - rewrite app_nil_r. reflexivity.
Qed.

(** The errors after a step, by the outcome of the step. *)
Lemma errors_after_step (k : nat) (a : string) :
  algorithms !! k = Some a ->
  errors (this (after (S k))) =
    errors (this (after k))
    ++ match outcome f path algorithms w k a with
       | Normal _ => []
       | Abrupt ex => [ErrorRecord.mk a (recordedMessage a ex)]
       end.
Proof.
  intros Ha. rewrite (afterSteps_S k a Ha). cbn [this]. unfold stepInstance.
  destruct (outcome f path algorithms w k a) as [m | ex]; simpl.
  - destruct (Z.eqb _ m); simpl; rewrite app_nil_r; reflexivity.
  - reflexivity.
Qed.

(** The flag [failed] after a step, by the outcome of the step. *)
Lemma failed_after_step (k : nat) (a : string) :
  algorithms !! k = Some a ->
  failed (this (after (S k))) =
    match outcome f path algorithms w k a with
    | Normal _ => failed (this (after k))
    | Abrupt _ => true
    end.
Proof.
  intros Ha. rewrite (afterSteps_S k a Ha). cbn [this]. unfold stepInstance.
  destruct (outcome f path algorithms w k a) as [m | ex]; simpl; [|reflexivity].
  destruct (Z.eqb _ m); reflexivity.
Qed.

Lemma trace_after_step (k : nat) (a : string) :
  algorithms !! k = Some a ->
  trace (after (S k)) =
    trace (after k)
    ++ stepTrace a k total (this (after k)) (outcome f path algorithms w k a).
Proof. intros Ha. rewrite (afterSteps_S k a Ha). reflexivity. Qed.

(** A property of observations that the first snapshot has and every step
    keeps holds all along the steps. *)
Lemma trace_steps_Forall (Q : Obs -> Prop) (R : nat -> Prop) :
  Q (Assigned (init f path algorithms)) ->
  R 0%nat ->
  (forall k a, algorithms !! k = Some a -> R k ->
     Forall Q (stepTrace a k total (this (after k)) (outcome f path algorithms w k a))
     /\ R (S k)) ->
  forall k, (k <= total)%nat -> Forall Q (trace (after k)) /\ R k.
Proof.
  intros Q0 R0 Hstep. apply steps_ind.
  - rewrite afterSteps_0. split; [|exact R0]. repeat constructor. exact Q0.
  - intros k a Ha [IHQ IHR]. destruct (Hstep k a Ha IHR) as [HQ HR].
    split; [|exact HR]. rewrite (trace_after_step k a Ha).
    apply Forall_app. split; assumption.
Qed.

End Run.

End StepFacts.

(** ** The size of the working file and the completed algorithms *)

Section SizeClaims.
Context {host : Host}.
Import Process.
Variables (f : File.t) (path : string) (algorithms : list string) (w : World).

Local Abbreviation after := (afterSteps f path algorithms w).
Local Abbreviation total := (List.length algorithms).
Local Abbreviation final := (this (snd (run f path algorithms w))).

Lemma final_instance : final = set_finished true (this (after total)).
Proof. rewrite run_eq. reflexivity. Qed.

Lemma stepTrace_withinOriginal (a : string) (i n : nat) (p : t) (c : Completion Z) :
  size p <= originalSize p ->
  (forall m, c = Normal m -> m <= size p) ->
  Forall withinOriginal (stepTrace a i n p c).
Proof.
  intros Hp Hc. unfold stepTrace, stepInstance. destruct c as [m | ex].
  - specialize (Hc m eq_refl). destruct (Z.eqb _ m); simpl;
      repeat constructor; simpl; lia.
  - repeat constructor; simpl; lia.
Qed.

(** C1, as amended: in every run, [size] starts equal to [originalSize],
    a failed step leaves it unchanged and a successful step sets it to the
    size measured after the step, whatever that size is. No successful step
    measuring a larger file than it found is the same as [size] not
    increasing from one step to the next; and in a run where that holds,
    [size <= originalSize] holds after every step, in every state the run
    goes through, and at its end. *)
Theorem size_within_original_when_steps_never_grow :
  size (this (after 0)) = originalSize (this (after 0))
  /\ (forall k a, algorithms !! k = Some a ->
        match outcome f path algorithms w k a with
        | Normal m => size (this (after (S k))) = m
        | Abrupt _ => size (this (after (S k))) = size (this (after k))
        end)
  /\ (NeverGrows f path algorithms w <->
      forall k, (k < total)%nat ->
        size (this (after (S k))) <= size (this (after k)))
  /\ (NeverGrows f path algorithms w ->
      (forall k, (k <= total)%nat ->
         size (this (after k)) <= originalSize (this (after k)))
      /\ Forall withinOriginal (trace (snd (run f path algorithms w)))
      /\ size final <= originalSize final).
Proof.
  assert (forall k a, algorithms !! k = Some a ->
            match outcome f path algorithms w k a with
            | Normal m => size (this (after (S k))) = m
            | Abrupt _ => size (this (after (S k))) = size (this (after k))
            end) as Hstep.
  { intros k a Ha. rewrite (size_after_step _ _ _ _ k a Ha).
    destruct (outcome f path algorithms w k a); reflexivity. }
  assert (NeverGrows f path algorithms w ->
          forall k, (k < total)%nat ->
            size (this (after (S k))) <= size (this (after k))) as Hmono.
  { intros Hgrow k Hk. destruct (lookup_lt_is_Some_2 algorithms k Hk) as [a Ha].
    specialize (Hstep k a Ha). specialize (Hgrow k a).
    destruct (outcome f path algorithms w k a) as [m | ex].
    - rewrite Hstep. now apply Hgrow.
    - rewrite Hstep. lia. }
  split; [rewrite afterSteps_0; reflexivity|].
  split; [exact Hstep|].
  split.
  { split; [exact Hmono|].
    intros Hle k a m Ha Hout.
    assert (k < total)%nat as Hk by (apply lookup_lt_Some in Ha; exact Ha).
    specialize (Hle k Hk). specialize (Hstep k a Ha).
    rewrite Hout in Hstep. rewrite Hstep in Hle. exact Hle. }
  intros Hgrow.
  assert (forall k, (k <= total)%nat ->
            Forall withinOriginal (trace (after k))
            /\ size (this (after k)) <= originalSize (this (after k))) as Hinv.
  { apply (trace_steps_Forall f path algorithms w withinOriginal
             (fun k => size (this (after k)) <= originalSize (this (after k)))).
    - simpl. lia.
    - rewrite afterSteps_0. simpl. lia.
    - intros k a Ha IH. split.
      + apply stepTrace_withinOriginal; [exact IH|]. intros m Hm. now apply (Hgrow k a).
      + assert (k < total)%nat as Hk by (apply lookup_lt_Some in Ha; exact Ha).
        pose proof (Hmono Hgrow k Hk) as Hdown.
        destruct (steps_frame f path algorithms w k) as (_ & _ & Ho & _); [lia|].
        destruct (steps_frame f path algorithms w (S k)) as (_ & _ & Ho' & _); [lia|].
        rewrite Ho'. rewrite Ho in IH. lia. }
  split; [intros k Hk; apply (Hinv k Hk)|].
  destruct (Hinv total (Nat.le_refl _)) as [Htr Hsz].
  split.
  - rewrite run_eq. cbn [snd trace]. apply Forall_app. split; [exact Htr|].
    repeat constructor. simpl. exact Hsz.
  - rewrite final_instance. simpl. exact Hsz.
Qed.

(** C2, as amended: an algorithm is recorded in [finishedAlgorithms] at its
    step exactly when the step succeeded and the size measured after it
    differs from the size before it; a failed step and a step that leaves the
    byte count as it was record nothing; nothing else writes the list, which
    is therefore a subsequence of the requested algorithms, in their order. *)
Theorem finishedAlgorithms_records_size_changes :
  finishedAlgorithms (this (after 0)) = []
  /\ (forall k a, algorithms !! k = Some a ->
        finishedAlgorithms (this (after (S k))) =
          finishedAlgorithms (this (after k))
          ++ match outcome f path algorithms w k a with
             | Normal m => if Z.eqb (size (this (after k))) m then [] else [a]
             | Abrupt _ => []
             end)
  /\ finishedAlgorithms final = finishedAlgorithms (this (after total))
  /\ finishedAlgorithms final `sublist_of` algorithms.
Proof.
  split; [rewrite afterSteps_0; reflexivity|].
  split; [apply finishedAlgorithms_after_step|].
  split; [rewrite final_instance; reflexivity|].
  rewrite final_instance. cbn [finishedAlgorithms set_finished].
  assert (forall k, (k <= total)%nat ->
            finishedAlgorithms (this (after k)) `sublist_of` take k algorithms) as H;
    [| specialize (H total (Nat.le_refl _)); now rewrite firstn_all in H].
  apply (steps_ind algorithms
           (fun k => finishedAlgorithms (this (after k)) `sublist_of` take k algorithms)).
  - rewrite afterSteps_0. apply sublist_nil_l.
  - intros k a Ha IH. rewrite (finishedAlgorithms_after_step _ _ _ _ k a Ha).
    rewrite (take_S_r _ _ _ Ha). apply sublist_app; [exact IH|].
    destruct (outcome f path algorithms w k a) as [m | ex];
      [destruct (Z.eqb _ m)|]; try apply sublist_nil_l. reflexivity.
Qed.

End SizeClaims.

(** A run of the scripted host in which no step grows the file, for
    [size_within_original_when_steps_never_grow]. *)
Lemma size_within_original_witness :
  NeverGrows (host := Scripted.host) Scripted.photo "/tmp/photo.jpg"
    Scripted.jpegAlgorithms Scripted.mixed
  /\ Process.size
       (Process.this
          (snd (Process.run (host := Scripted.host) Scripted.photo "/tmp/photo.jpg"
                  Scripted.jpegAlgorithms Scripted.mixed)))
     <= Process.originalSize
          (Process.this
             (snd (Process.run (host := Scripted.host) Scripted.photo "/tmp/photo.jpg"
                     Scripted.jpegAlgorithms Scripted.mixed))).
Proof.
  assert (NeverGrows (host := Scripted.host) Scripted.photo "/tmp/photo.jpg"
            Scripted.jpegAlgorithms Scripted.mixed) as H.
  { assert (outcome (host := Scripted.host) Scripted.photo "/tmp/photo.jpg"
              Scripted.jpegAlgorithms Scripted.mixed 0 "jpegoptim"
            = Abrupt Scripted.epipe) as E0 by (vm_compute; reflexivity).
    assert (outcome (host := Scripted.host) Scripted.photo "/tmp/photo.jpg"
              Scripted.jpegAlgorithms Scripted.mixed 1 "jpegtran"
            = Normal 800) as E1 by (vm_compute; reflexivity).
    assert (outcome (host := Scripted.host) Scripted.photo "/tmp/photo.jpg"
              Scripted.jpegAlgorithms Scripted.mixed 2 "mozjpeg"
            = Normal 800) as E2 by (vm_compute; reflexivity).
    intros k a m Hk Hout.
    destruct k as [|[|[|k]]]; simpl in Hk; try discriminate Hk; injection Hk as <-.
    - rewrite E0 in Hout. discriminate Hout.
    - rewrite E1 in Hout. injection Hout as <-. vm_compute. intros Hgt. discriminate Hgt.
    - rewrite E2 in Hout. injection Hout as <-. vm_compute. intros Hgt. discriminate Hgt. }
  split; [exact H|].
  exact (proj2 (proj2
    (proj2 (proj2 (proj2
       (size_within_original_when_steps_never_grow (host := Scripted.host)
          Scripted.photo "/tmp/photo.jpg" Scripted.jpegAlgorithms Scripted.mixed)))
     H))).
Defined.

(** C1 as stated fails: nothing in the source compares the size measured
    after a step with the size before it, so a tool that writes 1200 bytes
    over a 1000-byte file leaves [size] above [originalSize]. *)
Lemma size_above_original_counterexample :
  ~ (forall (host : Host) (f : File.t) (path : string) (algorithms : list string)
       (w : World),
       Process.size (Process.this (snd (Process.run f path algorithms w)))
       <= Process.originalSize (Process.this (snd (Process.run f path algorithms w)))).
Proof.
  intros H.
  specialize (H Scripted.host Scripted.photo "/tmp/photo.jpg" ["mozjpeg"] Scripted.growing).
  apply H. vm_compute. reflexivity.
Qed.

(** C2 as stated fails: the same run records [mozjpeg] as completed although
    its step did not reduce the file. *)
Lemma recorded_without_reduction_counterexample :
  ~ (forall (host : Host) (f : File.t) (path : string) (algorithms : list string)
       (w : World) (k : nat) (a : string),
       algorithms !! k = Some a ->
       (Process.finishedAlgorithms (Process.this (afterSteps f path algorithms w (S k))) =
          Process.finishedAlgorithms (Process.this (afterSteps f path algorithms w k)) ++ [a]
        <-> exists m, outcome f path algorithms w k a = Normal m
                      /\ m < Process.size (Process.this (afterSteps f path algorithms w k)))).
Proof.
  intros H.
  specialize (H Scripted.host Scripted.photo "/tmp/photo.jpg" ["mozjpeg"]
                Scripted.growing 0%nat "mozjpeg" eq_refl).
  destruct (proj1 H) as (m & Hm & Hlt); [vm_compute; reflexivity|].
  assert (outcome (host := Scripted.host) Scripted.photo "/tmp/photo.jpg" ["mozjpeg"]
            Scripted.growing 0 "mozjpeg" = Normal 1200) as E by (vm_compute; reflexivity).
  rewrite E in Hm. injection Hm as <-.
  assert (Process.size
            (Process.this
               (afterSteps (host := Scripted.host) Scripted.photo "/tmp/photo.jpg"
                  ["mozjpeg"] Scripted.growing 0)) = 1000) as E'
    by (vm_compute; reflexivity).
  rewrite E' in Hlt. lia.
Qed.

(** ** Failures, events and the end of the run *)

Section RunClaims.
Context {host : Host}.
Import Process.
Variables (f : File.t) (path : string) (algorithms : list string) (w : World).

Local Abbreviation after := (afterSteps f path algorithms w).
Local Abbreviation total := (List.length algorithms).
Local Abbreviation final := (this (snd (run f path algorithms w))).

Lemma stepTrace_stepEvents (k : nat) (a : string) :
  algorithms !! k = Some a ->
  List.filter isStepEvent
    (stepTrace a k total (this (after k)) (outcome f path algorithms w k a))
  = bracket f path algorithms w k a.
Proof.
  intros Ha. unfold bracket. rewrite (size_after_step _ _ _ _ k a Ha).
  unfold stepTrace. destruct (outcome f path algorithms w k a) as [m | ex].
  - destruct (Z.eqb _ m); reflexivity.
  - reflexivity.
Qed.

(** Every algorithm of the list gets its step, in order, whatever the
    outcomes: the step events of the steps are the brackets of the list. *)
Lemma steps_stepEvents (k : nat) :
  (k <= total)%nat ->
  List.filter isStepEvent (trace (after k))
  = concat (imap (bracket f path algorithms w) (take k algorithms)).
Proof.
  revert k. apply steps_ind.
  - rewrite afterSteps_0. reflexivity.
  - intros k a Ha IH.
    rewrite (trace_after_step _ _ _ _ k a Ha), List.filter_app, IH.
    rewrite (stepTrace_stepEvents k a Ha), (take_S_r _ _ _ Ha), imap_app, concat_app.
    rewrite length_take_le by (apply lookup_lt_Some in Ha; lia).
    simpl. rewrite Nat.add_0_r. reflexivity.
Qed.

Lemma run_stepEvents :
  List.filter isStepEvent (trace (snd (run f path algorithms w)))
  = brackets f path algorithms w.
Proof.
  rewrite run_eq. cbn [snd trace]. rewrite List.filter_app, steps_stepEvents by lia.
  rewrite firstn_all. simpl. rewrite app_nil_r. reflexivity.
Qed.

(** C3: when step [k] fails with [ex], exactly one record, for the
    algorithm of the step, is appended to [errors], and [size] is what it
    was before the step; the step events of the run are the start and end
    events of every algorithm of the list, in order, those after [k]
    included; and the promise chain of the run is fulfilled: nothing is
    thrown out of the run. *)
Theorem failed_step_is_recorded_and_the_run_goes_on (k : nat) (a : string) (ex : Error) :
  algorithms !! k = Some a ->
  outcome f path algorithms w k a = Abrupt ex ->
  errors (this (after (S k)))
    = errors (this (after k)) ++ [ErrorRecord.mk a (recordedMessage a ex)]
  /\ size (this (after (S k))) = size (this (after k))
  /\ List.filter isStepEvent (trace (snd (run f path algorithms w)))
     = brackets f path algorithms w
  /\ fst (run f path algorithms w) = Normal tt.
Proof.
  intros Ha Hex. split; [|split; [|split]].
  - rewrite (errors_after_step _ _ _ _ k a Ha), Hex. reflexivity.
  - rewrite (size_after_step _ _ _ _ k a Ha), Hex. reflexivity.
  - apply run_stepEvents.
  - rewrite run_eq. reflexivity.
Qed.

Lemma stepTrace_underWay (a : string) (i n : nat) (p : t) (c : Completion Z) :
  finished p = false ->
  Forall underWay (stepTrace a i n p c)
  /\ finished (stepInstance a i n p c) = false.
Proof.
  intros Hp. unfold stepTrace, stepInstance. destruct c as [m | ex].
  - destruct (Z.eqb _ m); simpl; split; try exact Hp; repeat constructor; exact Hp.
  - simpl; split; try exact Hp; repeat constructor; exact Hp.
Qed.

Lemma steps_underWay (k : nat) :
  (k <= total)%nat -> Forall underWay (trace (after k)).
Proof.
  intros Hk.
  apply (trace_steps_Forall f path algorithms w underWay
           (fun k => finished (this (after k)) = false)); [reflexivity | | | exact Hk].
  - rewrite afterSteps_0. reflexivity.
  - intros j a Ha IH.
    destruct (stepTrace_underWay a j total (this (after j))
                (outcome f path algorithms w j a) IH) as [Htr Hfin].
    split; [exact Htr|]. rewrite (afterSteps_S _ _ _ _ j a Ha). exact Hfin.
Qed.

Lemma underWay_not_finish (l : list Obs) :
  Forall underWay l -> List.filter isFinish l = [].
Proof.
  induction 1 as [|o l Ho _ IH]; [reflexivity|]. simpl. rewrite IH.
  destruct o as [p | []]; simpl in *; try reflexivity. contradiction.
Qed.

(** C4: whatever the algorithms and the outcomes of their steps, the trace
    of the run is that of the steps, all of them with [finished] down and
    neither [done] nor [finish] out, followed by the [done] event, the one
    assignment that raises [finished], and the [finish] event, which is the
    last thing the run does and the only [finish] of the trace; the promise
    chain is fulfilled. *)
Theorem finish_fires_exactly_once_and_last :
  fst (run f path algorithms w) = Normal tt
  /\ trace (snd (run f path algorithms w))
     = trace (after total)
       ++ [Emitted (on_done (size (this (after total))));
           Assigned final;
           Emitted on_finish]
  /\ Forall underWay (trace (after total))
  /\ final = set_finished true (this (after total))
  /\ finished final = true
  /\ List.length (List.filter isFinish (trace (snd (run f path algorithms w)))) = 1%nat.
Proof.
  pose proof (steps_underWay total (Nat.le_refl _)) as Hsteps.
  rewrite run_eq. cbn [fst snd trace this].
  repeat split; try exact Hsteps.
  rewrite List.filter_app, (underWay_not_finish _ Hsteps). reflexivity.
Qed.

(** C7: with an empty list of algorithms the run is the first snapshot,
    the [done] event with the original size, the assignment of [finished]
    and the [finish] event: no step event, [size] equal to [originalSize],
    no error, and a fulfilled promise chain. *)
Theorem empty_list_goes_straight_to_done_and_finish :
  run f path [] w
  = (Normal tt,
     mkSys (set_finished true (init f path [])) w
       [Assigned (init f path []);
        Emitted (on_done (File.size f));
        Assigned (set_finished true (init f path []));
        Emitted on_finish])
  /\ List.filter isStepEvent (trace (snd (run f path [] w))) = []
  /\ size (this (snd (run f path [] w))) = originalSize (this (snd (run f path [] w)))
  /\ originalSize (this (snd (run f path [] w))) = File.size f
  /\ errors (this (snd (run f path [] w))) = []
  /\ failed (this (snd (run f path [] w))) = false
  /\ finished (this (snd (run f path [] w))) = true.
Proof. repeat split. Qed.

(** C8: the message recorded for a failing step is the hint to install
    libjpeg when the algorithm is [jpegoptim] and the error bears the
    library-not-found signature (EPIPE in its code, or "Library not
    loaded:", some characters on the same line, "libjpeg" in its message),
    and the message of the error itself in every other case. *)
Theorem recorded_message_is_hint_or_own_message (k : nat) (a : string) (ex : Error) :
  algorithms !! k = Some a ->
  outcome f path algorithms w k a = Abrupt ex ->
  exists msg,
    errors (this (after (S k))) = errors (this (after k)) ++ [ErrorRecord.mk a msg]
    /\ (a = "jpegoptim" /\ LibjpegNotFound ex -> msg = libjpegHint)
    /\ (~ (a = "jpegoptim" /\ LibjpegNotFound ex) -> msg = message ex).
Proof.
  intros Ha Hex. exists (recordedMessage a ex). split; [|split].
  - rewrite (errors_after_step _ _ _ _ k a Ha), Hex. reflexivity.
  - intros [-> Hsig]. apply SelectorFacts.isLibjpegNotFound_spec in Hsig.
    unfold recordedMessage. rewrite Hsig. reflexivity.
  - intros Hnot. unfold recordedMessage.
    destruct (String.eqb_spec a "jpegoptim") as [-> | Hne]; [|reflexivity].
    destruct (isLibjpegNotFound ex) eqn:Hsig; [|reflexivity].
    exfalso. apply Hnot. split; [reflexivity|].
    now apply SelectorFacts.isLibjpegNotFound_spec.
Qed.

Lemma stepTrace_notYetFailed (a : string) (i n : nat) (p : t) (m : Z) :
  failed p = false ->
  Forall notYetFailed (stepTrace a i n p (Normal m))
  /\ failed (stepInstance a i n p (Normal m)) = false.
Proof.
  intros Hp. unfold stepTrace, stepInstance.
  destruct (Z.eqb _ m); simpl; split; try exact Hp; repeat constructor; exact Hp.
Qed.

Lemma stepTrace_failedFromHere (a : string) (i n : nat) (p : t) (c : Completion Z) :
  failed p = true ->
  Forall failedFromHere (stepTrace a i n p c)
  /\ failed (stepInstance a i n p c) = true.
Proof.
  intros Hp. unfold stepTrace, stepInstance. destruct c as [m | ex].
  - destruct (Z.eqb _ m); simpl; split; try exact Hp; repeat constructor; exact Hp.
  - simpl; split; try reflexivity; repeat constructor; exact Hp.
Qed.

(** While every step so far has succeeded, the run has not failed. *)
Lemma steps_notYetFailed (k : nat) :
  (k <= total)%nat ->
  (forall j b, (j < k)%nat -> algorithms !! j = Some b ->
     exists m, outcome f path algorithms w j b = Normal m) ->
  Forall notYetFailed (trace (after k)) /\ failed (this (after k)) = false.
Proof.
  intros Hk. revert k Hk.
  apply (steps_ind algorithms
           (fun k => (forall j b, (j < k)%nat -> algorithms !! j = Some b ->
                        exists m, outcome f path algorithms w j b = Normal m) ->
                     Forall notYetFailed (trace (after k))
                     /\ failed (this (after k)) = false)).
  - intros _. rewrite afterSteps_0. split; [|reflexivity]. repeat constructor.
  - intros k a Ha IH Hok.
    destruct IH as [IHtr IHf]; [intros j b Hj; apply Hok; lia|].
    destruct (Hok k a (Nat.lt_succ_diag_r k) Ha) as [m Hm].
    rewrite (afterSteps_S _ _ _ _ k a Ha), Hm. cbn [this trace].
    destruct (stepTrace_notYetFailed a k total (this (after k)) m IHf) as [Htr Hf].
    split; [|exact Hf]. apply Forall_app. split; assumption.
Qed.

(** Once [failed] is up it stays up, in every later state of the steps. *)
Lemma steps_failedFromHere (k j : nat) :
  (k + j <= total)%nat ->
  failed (this (after k)) = true ->
  exists ext,
    trace (after (k + j)) = trace (after k) ++ ext
    /\ Forall failedFromHere ext
    /\ failed (this (after (k + j))) = true.
Proof.
  intros Hkj Hk. induction j as [|j IH].
  - rewrite Nat.add_0_r. exists []. rewrite app_nil_r. repeat split; [constructor | exact Hk].
  - destruct IH as (ext & Htr & Hext & Hf); [lia|].
    destruct (lookup_lt_is_Some_2 algorithms (k + j)) as [b Hb]; [lia|].
    replace (k + S j)%nat with (S (k + j)) by lia.
    rewrite (afterSteps_S _ _ _ _ (k + j) b Hb). cbn [this trace].
    destruct (stepTrace_failedFromHere b (k + j) total (this (after (k + j)))
                (outcome f path algorithms w (k + j) b) Hf) as [Hst Hsf].
    eexists. rewrite Htr, <- app_assoc. split; [reflexivity|].
    split; [|exact Hsf]. apply Forall_app. split; assumption.
Qed.

(** Every failing step emits [failed], not the first one only: the run has
    as many [failed] events as it has recorded errors. *)
Lemma failed_events_count_errors :
  List.length (List.filter isFailedEvent (trace (snd (run f path algorithms w))))
  = List.length (errors final).
Proof.
  assert (forall k, (k <= total)%nat ->
            List.length (List.filter isFailedEvent (trace (after k)))
            = List.length (errors (this (after k)))) as H.
  { apply steps_ind.
    - rewrite afterSteps_0. reflexivity.
    - intros k a Ha IH.
      rewrite (trace_after_step _ _ _ _ k a Ha), (errors_after_step _ _ _ _ k a Ha).
      rewrite List.filter_app, !length_app, IH. f_equal.
      unfold stepTrace. destruct (outcome f path algorithms w k a) as [m | ex];
        [destruct (Z.eqb _ m)|]; reflexivity. }
  rewrite run_eq. cbn [snd trace this errors set_finished].
  rewrite List.filter_app, length_app, (H total (Nat.le_refl _)). simpl. lia.
Qed.

(** C5: when step [k] is the first to fail, with error [ex], the run has
    not failed up to the moment, within step [k], when [failed] is set; the
    [failed] event carrying [ex] comes right after that assignment, before
    the end event of the step; and [failed] is up in every later state of
    the run, the last one included. *)
Theorem failed_event_at_first_failing_step_and_flag_sticks
    (k : nat) (a : string) (ex : Error) :
  algorithms !! k = Some a ->
  (forall j b, (j < k)%nat -> algorithms !! j = Some b ->
     exists m, outcome f path algorithms w j b = Normal m) ->
  outcome f path algorithms w k a = Abrupt ex ->
  let cur := Some (Current.mk a k total) in
  let pc := set_currentAlgorithm cur (this (after k)) in
  let pe := push_errors (ErrorRecord.mk a (recordedMessage a ex)) pc in
  let pf := set_failed true pe in
  exists post,
    trace (snd (run f path algorithms w))
      = (trace (after k) ++ [Assigned pc; Emitted (on_start cur); Assigned pe])
        ++ [Assigned pf; Emitted (on_failed ex)]
        ++ [Assigned (set_size (size pf) pf); Emitted (on_end cur (size pf))]
        ++ post
    /\ Forall notYetFailed
         (trace (after k) ++ [Assigned pc; Emitted (on_start cur); Assigned pe])
    /\ failed pf = true
    /\ Forall failedFromHere post
    /\ failed final = true.
Proof.
  intros Ha Hok Hex cur pc pe pf.
  assert (k < total)%nat as Hk by (apply lookup_lt_Some in Ha; exact Ha).
  destruct (steps_notYetFailed k) as [Hpre Hf0]; [lia | exact Hok |].
  assert (failed (this (after (S k))) = true) as HfS.
  { rewrite (failed_after_step _ _ _ _ k a Ha), Hex. reflexivity. }
  destruct (steps_failedFromHere (S k) (total - S k)) as (ext & Htr & Hext & Hf);
    [lia | exact HfS |].
  replace (S k + (total - S k))%nat with total in * by lia.
  exists (ext ++ [Emitted (on_done (size (this (after total))));
                  Assigned final; Emitted on_finish]).
  split; [|split; [|split; [reflexivity|split]]].
  - rewrite run_eq. cbn [snd trace this]. rewrite Htr.
    rewrite (trace_after_step _ _ _ _ k a Ha), Hex. unfold stepTrace, stepInstance.
    fold cur. fold pc. fold pe. fold pf. rewrite <- !app_assoc. reflexivity.
  - apply Forall_app. split; [exact Hpre|]. repeat constructor; exact Hf0.
  - apply Forall_app. split; [exact Hext|]. rewrite run_eq. cbn [snd this].
    repeat constructor. exact Hf.
  - rewrite run_eq. cbn [snd this]. exact Hf.
Qed.

End RunClaims.

Section Construction.
Context {host : Host}.
Import Process.

(** A constructed instance is a run from the path [_getPath] resolved. *)
Lemma constructor_runs (f : File.t) (algorithms : list string) (keepSource : bool)
    (w : World) (r : Completion unit * Sys) :
  constructor f algorithms keepSource w = Normal r ->
  exists path w',
    _getPath f keepSource w = (Normal path, w') /\ r = run f path algorithms w'.
Proof.
  unfold constructor. destruct (_getPath f keepSource w) as [[path | ex] w'];
    [|discriminate].
  intros [= <-]. eauto.
Qed.

(** Keeping the source, the constructor cannot throw and works on the
    original file. *)
Lemma constructor_keepSource (f : File.t) (algorithms : list string) (w : World) :
  constructor f algorithms true w = Normal (run f (File.path f) algorithms w).
Proof. reflexivity. Qed.

End Construction.

(** ** Observers that return arrays and objects *)

Module StoreFacts.
Import Store.

Lemma decode_inv (h : Heap) (this : loc) (p : Process.t) :
  decode h this = Some p ->
  (exists v, getProp h this "algorithms" = Some v
             /\ readStrings h v = Some (Process.algorithms p))
  /\ (exists v, getProp h this "currentAlgorithm" = Some v
                /\ readCurrent h v = Some (Process.currentAlgorithm p))
  /\ (exists v, getProp h this "finishedAlgorithms" = Some v
                /\ readStrings h v = Some (Process.finishedAlgorithms p))
  /\ (exists v, getProp h this "errors" = Some v
                /\ readErrors h v = Some (Process.errors p)).
Proof.
  unfold decode. intros H. simplify_option_eq.
  split; [|split; [|split]]; eexists; (split; [reflexivity | eassumption]).
Qed.

(** Allocation leaves every object already in the store where it is. *)
Lemma getProp_ext (h ext : Heap) (l : loc) (key : string) (v : Value) :
  getProp h l key = Some v -> getProp (h ++ ext) l key = Some v.
Proof.
  unfold getProp. destruct (h !! l) as [o|] eqn:E; [|discriminate].
  rewrite (lookup_app_l_Some _ _ _ _ E). trivial.
Qed.

Lemma readStrings_ext (h ext : Heap) (v : Value) (l : list string) :
  readStrings h v = Some l -> readStrings (h ++ ext) v = Some l.
Proof.
  unfold readStrings. destruct v as [| | | | |r]; try discriminate.
  destruct (h !! r) as [o|] eqn:E; [|discriminate].
  rewrite (lookup_app_l_Some _ _ _ _ E). trivial.
Qed.

Lemma readFile_ext (h ext : Heap) (v : Value) (f : File.t) :
  readFile h v = Some f -> readFile (h ++ ext) v = Some f.
Proof.
  unfold readFile. destruct v as [| | | | |r]; try discriminate.
  intros H. simplify_option_eq.
  repeat (erewrite getProp_ext by eassumption; simpl). 
  simplify_option_eq. reflexivity.
Qed.

Lemma readCurrent_ext (h ext : Heap) (v : Value) (c : option Current.t) :
  readCurrent h v = Some c -> readCurrent (h ++ ext) v = Some c.
Proof.
  unfold readCurrent. destruct v as [| | | | |r]; try discriminate; [trivial|].
  intros H. simplify_option_eq.
  repeat (erewrite getProp_ext by eassumption; simpl).
  simplify_option_eq. reflexivity.
Qed.

Lemma readErrorRecord_ext (h ext : Heap) (v : Value) (e : ErrorRecord.t) :
  readErrorRecord h v = Some e -> readErrorRecord (h ++ ext) v = Some e.
Proof.
  unfold readErrorRecord. destruct v as [| | | | |r]; try discriminate.
  intros H. simplify_option_eq.
  repeat (erewrite getProp_ext by eassumption; simpl).
  simplify_option_eq. reflexivity.
Qed.

Lemma readErrors_ext (h ext : Heap) (v : Value) (l : list ErrorRecord.t) :
  readErrors h v = Some l -> readErrors (h ++ ext) v = Some l.
Proof.
  unfold readErrors. destruct v as [| | | | |r]; try discriminate.
  destruct (h !! r) as [[es|ps]|] eqn:E; try discriminate.
  rewrite (lookup_app_l_Some _ _ _ _ E). rewrite !mapM_Some.
  intros Hall. apply (Forall2_impl _ _ _ _ Hall).
  intros x y. apply readErrorRecord_ext.
Qed.

Lemma decode_ext (h ext : Heap) (this : loc) (p : Process.t) :
  decode h this = Some p -> decode (h ++ ext) this = Some p.
Proof.
  unfold decode. intros H. simplify_option_eq.
  repeat (erewrite getProp_ext by eassumption; simpl).
  erewrite readFile_ext by eassumption.
  erewrite !readStrings_ext by eassumption.
  erewrite readCurrent_ext by eassumption.
  erewrite readErrors_ext by eassumption.
  simplify_option_eq. reflexivity.
Qed.

Lemma mapM_asStr (es : list Value) (l : list string) :
  mapM asStr es = Some l -> es = map VStr l.
Proof.
  rewrite mapM_Some. induction 1 as [|v x es l Hv _ IH]; [reflexivity|].
  destruct v; try discriminate. injection Hv as ->. simpl. now rewrite IH.
Qed.

Lemma readStrings_inv (h : Heap) (v : Value) (l : list string) :
  readStrings h v = Some l ->
  exists r, v = VRef r /\ h !! r = Some (Array (map VStr l)).
Proof.
  unfold readStrings. destruct v as [| | | | |r]; try discriminate.
  destruct (h !! r) as [[es|ps]|] eqn:E; try discriminate.
  intros ->%mapM_asStr. eauto.
Qed.

(** A write through a reference that was fresh when it was handed out. *)
Lemma insert_fresh (h : Heap) (x o : Object) :
  <[List.length h := o]> (h ++ [x]) = h ++ [o].
Proof.
  replace (List.length h) with (List.length h + 0)%nat by lia.
  rewrite insert_app_r. reflexivity.
Qed.

(** [[...v]] on an array field hands out a fresh array with the same
    elements; whatever is then written through the new reference, the
    instance reads as before. *)
Lemma spreadArray_copies (h : Heap) (this : loc) (p : Process.t) (v : Value)
    (l : list string) :
  decode h this = Some p ->
  readStrings h v = Some l ->
  spreadArray h v = Some (VRef (List.length h), h ++ [Array (map VStr l)])
  /\ forall o, decode (<[List.length h := o]> (h ++ [Array (map VStr l)])) this = Some p.
Proof.
  intros Hp (r & -> & Hr)%readStrings_inv. split.
  - unfold spreadArray. rewrite Hr. reflexivity.
  - intros o. rewrite insert_fresh. now apply decode_ext.
Qed.

Lemma getAlgorithms_copies (h : Heap) (this : loc) (p : Process.t) :
  decode h this = Some p ->
  getAlgorithms h this
    = Some (VRef (List.length h), h ++ [Array (map VStr (Process.algorithms p))])
  /\ forall o,
       decode (<[List.length h := o]> (h ++ [Array (map VStr (Process.algorithms p))])) this
       = Some p.
Proof.
  intros Hp. destruct (decode_inv _ _ _ Hp) as ((v & Hv & Hl) & _).
  unfold getAlgorithms. rewrite Hv. simpl. now apply spreadArray_copies.
Qed.

Lemma getFinishedAlgorithms_copies (h : Heap) (this : loc) (p : Process.t) :
  decode h this = Some p ->
  getFinishedAlgorithms h this
    = Some (VRef (List.length h),
            h ++ [Array (map VStr (Process.finishedAlgorithms p))])
  /\ forall o,
       decode (<[List.length h := o]>
                 (h ++ [Array (map VStr (Process.finishedAlgorithms p))])) this
       = Some p.
Proof.
  intros Hp. destruct (decode_inv _ _ _ Hp) as (_ & _ & (v & Hv & Hl) & _).
  unfold getFinishedAlgorithms. rewrite Hv. simpl. now apply spreadArray_copies.
Qed.

Lemma getProp_fresh (h : Heap) (ps : list (string * Value)) (key : string) :
  getProp (h ++ [Props ps]) (List.length h) key
  = Some (default VUndefined (assoc key ps)).
Proof. unfold getProp. rewrite list_lookup_middle by reflexivity. reflexivity. Qed.

(** [({ ...this.currentAlgorithm })] hands out a fresh object: without any
    property when the field is [null], and otherwise with the properties of
    the record of the field; whatever is then written through the new
    reference, the instance reads as before. *)
Lemma getCurrentAlgorithm_copies (h : Heap) (this : loc) (p : Process.t) :
  decode h this = Some p ->
  exists ps,
    getCurrentAlgorithm h this = Some (VRef (List.length h), h ++ [Props ps])
    /\ (Process.currentAlgorithm p = None -> ps = [])
    /\ (forall c, Process.currentAlgorithm p = Some c ->
          readCurrent (h ++ [Props ps]) (VRef (List.length h)) = Some (Some c))
    /\ forall o, decode (<[List.length h := o]> (h ++ [Props ps])) this = Some p.
Proof.
  intros Hp. destruct (decode_inv _ _ _ Hp) as (_ & (v & Hv & Hc) & _).
  unfold getCurrentAlgorithm. rewrite Hv. simpl.
  destruct v as [| | | | |r]; try discriminate.
  - injection Hc as Hc. exists []. repeat split.
    + congruence.
    + intros o. rewrite insert_fresh. now apply decode_ext.
  - simpl in Hc. unfold spreadObject.
    destruct (h !! r) as [[es|ps]|] eqn:E;
      try (unfold getProp in Hc; rewrite E in Hc; discriminate).
    exists ps. repeat split.
    + intros Hnone. rewrite Hnone in Hc. simplify_option_eq.
    + intros c Hsome. rewrite Hsome in Hc. simpl.
      unfold getProp in Hc. rewrite E in Hc. rewrite !getProp_fresh. exact Hc.
    + intros o. rewrite insert_fresh. now apply decode_ext.
Qed.

(** [getErrors] allocates nothing and hands out the value of the field. *)
Lemma getErrors_returns_field (h : Heap) (this : loc) (p : Process.t) :
  decode h this = Some p ->
  exists v, getProp h this "errors" = Some v /\ getErrors h this = Some (v, h).
Proof.
  intros Hp. destruct (decode_inv _ _ _ Hp) as (_ & _ & _ & (v & Hv & _)).
  exists v. unfold getErrors. rewrite Hv. auto.
Qed.

End StoreFacts.

Section ObserverClaims.
Context {host : Host}.
Import Store.

Lemma currentAlgorithm_at_the_end (f : File.t) (path : string) (pre : list string)
    (a : string) (w : World) :
  Process.currentAlgorithm (Process.this (snd (Process.run f path (pre ++ [a]) w)))
  = Some (Current.mk a (List.length pre) (S (List.length pre))).
Proof.
  rewrite run_eq. cbn [snd Process.this Process.currentAlgorithm Process.set_finished].
  assert ((pre ++ [a]) !! List.length pre = Some a) as Ha
    by (apply list_lookup_middle; reflexivity).
  rewrite length_app, Nat.add_1_r.
  rewrite (afterSteps_S _ _ _ _ _ a Ha). cbn [Process.this].
  rewrite length_app, Nat.add_1_r.
  unfold stepInstance. destruct (outcome _ _ _ _ _ _) as [m | ex]; simpl.
  - destruct (Z.eqb _ m); reflexivity.
  - reflexivity.
Qed.

(** C10: on an instance that is in the state the constructor initialises,
    no step started, [getCurrentAlgorithm] returns a reference to a fresh
    object without properties, not [null]; on an instance whose run is over,
    it returns a fresh object that reads as the record of the last step:
    the last algorithm of the list, its index, and the length of the list. *)
Theorem getCurrentAlgorithm_is_an_object_before_and_after
    (f : File.t) (path : string) (algorithms pre : list string) (a : string)
    (w : World) (h0 : Heap) (this0 : loc) (h1 : Heap) (this1 : loc) :
  decode h0 this0 = Some (Process.init f path algorithms) ->
  decode h1 this1 = Some (Process.this (snd (Process.run f path (pre ++ [a]) w))) ->
  getCurrentAlgorithm h0 this0 = Some (VRef (List.length h0), h0 ++ [Props []])
  /\ exists ps,
       getCurrentAlgorithm h1 this1 = Some (VRef (List.length h1), h1 ++ [Props ps])
       /\ readCurrent (h1 ++ [Props ps]) (VRef (List.length h1))
          = Some (Some (Current.mk a (List.length pre) (S (List.length pre)))).
Proof.
  intros H0 H1. split.
  - destruct (StoreFacts.getCurrentAlgorithm_copies _ _ _ H0) as (ps & Hget & Hnone & _).
    rewrite Hget, (Hnone eq_refl). reflexivity.
  - destruct (StoreFacts.getCurrentAlgorithm_copies _ _ _ H1) as (ps & Hget & _ & Hsome & _).
    exists ps. split; [exact Hget|]. apply Hsome. apply currentAlgorithm_at_the_end.
Qed.

End ObserverClaims.

(** ** Concrete runs *)

Section Concrete.
Import Process Scripted Store.

Local Abbreviation photoPath := "/tmp/photo.jpg".

(** A failing first step, for [failed_step_is_recorded_and_the_run_goes_on]. *)
Lemma failed_step_witness :
  jpegAlgorithms !! 0%nat = Some "jpegoptim"
  /\ outcome (host := Scripted.host) photo photoPath jpegAlgorithms mixed 0 "jpegoptim"
     = Abrupt epipe
  /\ (errors (this (afterSteps (host := Scripted.host) photo photoPath jpegAlgorithms mixed 1))
      = errors (this (afterSteps (host := Scripted.host) photo photoPath jpegAlgorithms mixed 0))
        ++ [ErrorRecord.mk "jpegoptim" (recordedMessage "jpegoptim" epipe)]
      /\ size (this (afterSteps (host := Scripted.host) photo photoPath jpegAlgorithms mixed 1))
         = size (this (afterSteps (host := Scripted.host) photo photoPath jpegAlgorithms mixed 0))
      /\ List.filter isStepEvent
           (trace (snd (run (host := Scripted.host) photo photoPath jpegAlgorithms mixed)))
         = brackets (host := Scripted.host) photo photoPath jpegAlgorithms mixed
      /\ fst (run (host := Scripted.host) photo photoPath jpegAlgorithms mixed) = Normal tt).
Proof.
  split; [reflexivity|]. split; [vm_compute; reflexivity|].
  apply (failed_step_is_recorded_and_the_run_goes_on (host := Scripted.host)
           photo photoPath jpegAlgorithms mixed 0 "jpegoptim" epipe);
    [reflexivity | vm_compute; reflexivity].
Defined.

(** A run whose second step is the first to fail, for
    [failed_event_at_first_failing_step_and_flag_sticks]. *)
Lemma first_failure_witness :
  jpegAlgorithms !! 1%nat = Some "jpegtran"
  /\ (forall j b, (j < 1)%nat -> jpegAlgorithms !! j = Some b ->
        exists m, outcome (host := Scripted.host) photo photoPath jpegAlgorithms
                    secondFails j b = Normal m)
  /\ outcome (host := Scripted.host) photo photoPath jpegAlgorithms secondFails 1 "jpegtran"
     = Abrupt crash
  /\ failed (this (snd (run (host := Scripted.host) photo photoPath jpegAlgorithms
                          secondFails))) = true.
Proof.
  assert (forall j b, (j < 1)%nat -> jpegAlgorithms !! j = Some b ->
            exists m, outcome (host := Scripted.host) photo photoPath jpegAlgorithms
                        secondFails j b = Normal m) as Hbefore.
  { intros j b Hj Hb. destruct j as [|j]; [|lia].
    injection Hb as <-. exists 800. vm_compute. reflexivity. }
  assert (outcome (host := Scripted.host) photo photoPath jpegAlgorithms secondFails
            1 "jpegtran" = Abrupt crash) as Hfail by (vm_compute; reflexivity).
  split; [reflexivity|]. split; [exact Hbefore|]. split; [exact Hfail|].
  destruct (failed_event_at_first_failing_step_and_flag_sticks (host := Scripted.host)
              photo photoPath jpegAlgorithms secondFails 1 "jpegtran" crash
              eq_refl Hbefore Hfail) as (post & _ & _ & _ & _ & Hfailed).
  exact Hfailed.
Defined.

(** The missing-library failure of [jpegoptim], for
    [recorded_message_is_hint_or_own_message]. *)
Lemma recorded_message_witness :
  jpegAlgorithms !! 0%nat = Some "jpegoptim"
  /\ outcome (host := Scripted.host) photo photoPath jpegAlgorithms mixed 0 "jpegoptim"
     = Abrupt epipe
  /\ exists msg,
       errors (this (afterSteps (host := Scripted.host) photo photoPath jpegAlgorithms mixed 1))
       = errors (this (afterSteps (host := Scripted.host) photo photoPath jpegAlgorithms mixed 0))
         ++ [ErrorRecord.mk "jpegoptim" msg]
       /\ ("jpegoptim" = "jpegoptim" /\ LibjpegNotFound epipe -> msg = libjpegHint)
       /\ (~ ("jpegoptim" = "jpegoptim" /\ LibjpegNotFound epipe) -> msg = message epipe).
Proof.
  split; [reflexivity|]. split; [vm_compute; reflexivity|].
  apply (recorded_message_is_hint_or_own_message (host := Scripted.host)
           photo photoPath jpegAlgorithms mixed 0 "jpegoptim" epipe);
    [reflexivity | vm_compute; reflexivity].
Defined.

(** An instance fresh from the constructor and one whose run is over, each
    written to an empty store, for
    [getCurrentAlgorithm_is_an_object_before_and_after]. *)
Lemma getCurrentAlgorithm_witness :
  let before := store (init (host := Scripted.host) photo photoPath jpegAlgorithms) [] in
  let after := store mixedEnd [] in
  decode (snd before) (fst before)
    = Some (init (host := Scripted.host) photo photoPath jpegAlgorithms)
  /\ decode (snd after) (fst after)
     = Some (this (snd (run (host := Scripted.host) photo photoPath
                          (["jpegoptim"; "jpegtran"] ++ ["mozjpeg"]) mixed)))
  /\ getCurrentAlgorithm (snd before) (fst before)
     = Some (VRef (List.length (snd before)), snd before ++ [Props []])
  /\ exists ps,
       getCurrentAlgorithm (snd after) (fst after)
       = Some (VRef (List.length (snd after)), snd after ++ [Props ps])
       /\ readCurrent (snd after ++ [Props ps]) (VRef (List.length (snd after)))
          = Some (Some (Current.mk "mozjpeg" 2 3)).
Proof.
  intros before after.
  assert (decode (snd before) (fst before)
          = Some (init (host := Scripted.host) photo photoPath jpegAlgorithms)) as H0
    by (vm_compute; reflexivity).
  assert (decode (snd after) (fst after)
          = Some (this (snd (run (host := Scripted.host) photo photoPath
                               (["jpegoptim"; "jpegtran"] ++ ["mozjpeg"]) mixed)))) as H1
    by (vm_compute; reflexivity).
  split; [exact H0|]. split; [exact H1|].
  exact (getCurrentAlgorithm_is_an_object_before_and_after (host := Scripted.host)
           photo photoPath jpegAlgorithms ["jpegoptim"; "jpegtran"] "mozjpeg" mixed
           (snd before) (fst before) (snd after) (fst after) H0 H1).
Defined.

(** C9, where the source falls short of it: [getErrors] returns
    [this.errors] itself, where [getAlgorithms], [getFinishedAlgorithms]
    and [getCurrentAlgorithm] return copies (see [getAlgorithms_copies],
    [getFinishedAlgorithms_copies], [getCurrentAlgorithm_copies]). On the
    instance left by the run of [jpegAlgorithms] in [mixed], a caller who
    pushes a record on the array it got from [getErrors] has added an error
    to the run. *)
Theorem getErrors_hands_out_the_internal_array :
  let this := fst (store mixedEnd []) in
  let h := snd (store mixedEnd []) in
  decode h this = Some mixedEnd
  /\ exists v r h1 h2,
       getErrors h this = Some (v, h)
       /\ getProp h this "errors" = Some v
       /\ alloc (Props (errorProps forged)) h = (r, h1)
       /\ push h1 v r = Some h2
       /\ decode h2 this = Some (push_errors forged mixedEnd)
       /\ decode h2 this <> decode h this.
Proof.
  split; [vm_compute; reflexivity|].
  eexists _, _, _, _.
  split; [vm_compute; reflexivity|]. split; [vm_compute; reflexivity|].
  split; [vm_compute; reflexivity|]. split; [vm_compute; reflexivity|].
  split; [vm_compute; reflexivity|]. vm_compute. intros Heq. discriminate Heq.
Qed.

End Concrete.

(** * Further properties *)

(** ** The engine selector, beyond the claims *)

Section MoreSelector.
Import Js JsFacts SelectorFacts.

(** X1: [isLibjpegNotFound] answers [true] exactly on the errors whose code,
    read as a string, contains EPIPE, or whose message contains
    "Library not loaded:", then one or more characters none of which ends
    the line, then "libjpeg". In particular an error without a code is
    judged on its message alone. *)
Theorem isLibjpegNotFound_decides_the_signature (ex : Error) :
  (isLibjpegNotFound ex = true <-> LibjpegNotFound ex)
  /\ (code ex = None ->
      (isLibjpegNotFound ex = true <->
       exists pre mid post,
         message ex = pre +:+ "Library not loaded:" +:+ mid +:+ "libjpeg" +:+ post
         /\ mid <> EmptyString
         /\ forall c, In c (list_ascii_of_string mid) -> isLineTerminator c = false)).
Proof.
  split; [apply isLibjpegNotFound_spec|].
  intros Hcode. rewrite isLibjpegNotFound_spec. unfold LibjpegNotFound.
  rewrite Hcode. split; [|intros H; right; exact H].
  intros [(pre & post & Hund) | H]; [|exact H]. exfalso.
  assert (RegExp_test (Lit "EPIPE") (ToString None) = true) as Ht.
  { apply RegExp_test_spec, Found_Lit. eauto. }
  vm_compute in Ht. discriminate Ht.
Qed.

Lemma members_disjoint (f g : Family) (a : string) :
  a ∈ members f -> a ∈ members g -> f = g.
Proof.
  destruct f, g; simpl; rewrite ?elem_of_cons, ?elem_of_nil; intros Hf Hg;
    try reflexivity; exfalso;
    repeat match goal with
    | H : _ \/ _ |- _ => destruct H as [H | H]
    | H : False |- _ => destruct H
    end; subst; discriminate.
Qed.

Lemma Selects_unique (t : string) (f g : Family) :
  Selects t f -> Selects t g -> f = g.
Proof.
  intros [Hf Hff] [Hg Hgg].
  destruct (Nat.lt_trichotomy (rank f) (rank g)) as [Hlt | [Heq | Hgt]].
  - exfalso. exact (Hgg f Hlt Hf).
  - destruct f, g; simpl in Heq; congruence.
  - exfalso. exact (Hff g Hgt Hg).
Qed.

(** X2: for one media type, the algorithms [getPlugin] has an operation for
    all belong to one family of the table: no media type string mixes the
    engines. *)
Theorem getPlugin_serves_one_family (mediaType a b : string) :
  isOperation (getPlugin mediaType a) ->
  isOperation (getPlugin mediaType b) ->
  exists f, Selects mediaType f /\ a ∈ members f /\ b ∈ members f.
Proof.
  intros (f & Hf & Ha)%isOperation_getPlugin (g & Hg & Hb)%isOperation_getPlugin.
  rewrite <- (Selects_unique _ _ _ Hf Hg) in Hb. eauto.
Qed.

(** X3: a media type that contains [image/svg+xml] contains [image/svg]:
    the second test of the SVG branch of [getPlugin] never decides. *)
Theorem second_svg_test_is_redundant (mediaType : string) :
  RegExp_test (Lit "image/svg") mediaType
  || RegExp_test (Lit "image/svg+xml") mediaType
  = RegExp_test (Lit "image/svg") mediaType.
Proof.
  destruct (RegExp_test (Lit "image/svg") mediaType) eqn:E1; [reflexivity|].
  destruct (RegExp_test (Lit "image/svg+xml") mediaType) eqn:E2; [|reflexivity].
  apply RegExp_test_spec, Found_Lit in E2 as (pre & post & ->).
  assert (RegExp_test (Lit "image/svg") (pre +:+ "image/svg+xml" +:+ post) = true) as H.
  { apply RegExp_test_spec, Found_Lit. exists pre, ("+xml" +:+ post). reflexivity. }
  congruence.
Qed.

(** X4: the configuration of an operation depends on the algorithm
    identifier alone: whatever two media types [getPlugin] is asked for,
    the operations it returns for one identifier are the same. *)
Theorem getPlugin_one_configuration_per_algorithm
    (mediaType mediaType' algorithm : string) (p p' : Plugin) :
  getPlugin mediaType algorithm = plugin p ->
  getPlugin mediaType' algorithm = plugin p' ->
  p = p'.
Proof.
  intros Hp Hp'.
  assert (isOperation (getPlugin mediaType algorithm)) as Hop by (now exists p).
  assert (isOperation (getPlugin mediaType' algorithm)) as Hop' by (now exists p').
  apply isOperation_getPlugin in Hop as (f & Hf & Ha).
  apply isOperation_getPlugin in Hop' as (g & Hg & Ha').
  rewrite (getPlugin_Selects _ _ _ Hf) in Hp.
  rewrite (getPlugin_Selects _ _ _ Hg) in Hp'.
  rewrite (members_disjoint _ _ _ Ha Ha') in Hp. congruence.
Qed.

End MoreSelector.

Lemma getPlugin_serves_one_family_witness :
  isOperation (getPlugin "image/png" "optipng")
  /\ isOperation (getPlugin "image/png" "zopfli")
  /\ exists f, Selects "image/png" f /\ "optipng" ∈ members f /\ "zopfli" ∈ members f.
Proof.
  assert (isOperation (getPlugin "image/png" "optipng")) as H1
    by (eexists; vm_compute; reflexivity).
  assert (isOperation (getPlugin "image/png" "zopfli")) as H2
    by (eexists; vm_compute; reflexivity).
  split; [exact H1|]. split; [exact H2|].
  exact (getPlugin_serves_one_family "image/png" "optipng" "zopfli" H1 H2).
Defined.

Lemma getPlugin_one_configuration_witness :
  getPlugin "image/jpeg" "mozjpeg" = plugin (imageminMozjpeg 90)
  /\ getPlugin "photo of type image/jpg" "mozjpeg" = plugin (imageminMozjpeg 90)
  /\ imageminMozjpeg 90 = imageminMozjpeg 90.
Proof.
  assert (getPlugin "image/jpeg" "mozjpeg" = plugin (imageminMozjpeg 90)) as H1
    by (vm_compute; reflexivity).
  assert (getPlugin "photo of type image/jpg" "mozjpeg" = plugin (imageminMozjpeg 90))
    as H2 by (vm_compute; reflexivity).
  split; [exact H1|]. split; [exact H2|].
  exact (getPlugin_one_configuration_per_algorithm _ _ _ _ _ H1 H2).
Defined.

(** ** The run, beyond the claims *)

Section MoreRun.
Context {host : Host}.
Import Process.
Variables (f : File.t) (path : string) (algorithms : list string) (w : World).

Local Abbreviation after := (afterSteps f path algorithms w).
Local Abbreviation total := (List.length algorithms).
Local Abbreviation final := (this (snd (run f path algorithms w))).

Lemma final_is_last_step : final = set_finished true (this (after total)).
Proof. rewrite run_eq. reflexivity. Qed.

Lemma trace_of_run_extends_steps (k : nat) :
  (k <= total)%nat ->
  trace (after k) `prefix_of` trace (snd (run f path algorithms w)).
Proof.
  intros Hk. rewrite run_eq. cbn [snd trace].
  apply prefix_app_r.
  replace total with (k + (total - k))%nat by lia.
  assert (forall j, (k + j <= total)%nat ->
            trace (after k) `prefix_of` trace (after (k + j))) as H.
  { induction j as [|j IH]; intros Hj.
    - rewrite Nat.add_0_r. reflexivity.
    - destruct (lookup_lt_is_Some_2 algorithms (k + j)) as [b Hb]; [lia|].
      replace (k + S j)%nat with (S (k + j)) by lia.
      rewrite (trace_after_step _ _ _ _ (k + j) b Hb).
      apply prefix_app_r, IH. lia. }
  apply H. lia.
Qed.

Lemma failed_iff_errors_after (k : nat) :
  (k <= total)%nat ->
  (failed (this (after k)) = true <-> errors (this (after k)) <> []).
Proof.
  revert k. apply steps_ind.
  - rewrite afterSteps_0. simpl. split; [discriminate | congruence].
  - intros k a Ha IH.
    rewrite (failed_after_step _ _ _ _ k a Ha), (errors_after_step _ _ _ _ k a Ha).
    destruct (outcome f path algorithms w k a) as [m | ex].
    + rewrite app_nil_r. exact IH.
    + split; [|reflexivity]. intros _ Hnil.
      apply app_eq_nil in Hnil as [_ Hnil]. discriminate Hnil.
Qed.

(** X5: after every step, and at the end of the run, [failed] is up exactly
    when [errors] holds a record. *)
Theorem failed_exactly_when_errors_recorded :
  (failed (this (snd (run f path algorithms w))) = true
   <-> errors (this (snd (run f path algorithms w))) <> [])
  /\ forall k, (k <= total)%nat ->
       (failed (this (afterSteps f path algorithms w k)) = true
        <-> errors (this (afterSteps f path algorithms w k)) <> []).
Proof.
  split; [|exact failed_iff_errors_after].
  rewrite final_is_last_step. simpl. apply failed_iff_errors_after. lia.
Qed.

(** X6: a step records at most one thing: the algorithms of the error
    records are a subsequence of the list of algorithms, and the errors and
    the completed algorithms together are no more than the steps. *)
Theorem one_record_per_step_at_most :
  map ErrorRecord.algorithm (errors (this (snd (run f path algorithms w))))
    `sublist_of` algorithms
  /\ (List.length (errors (this (snd (run f path algorithms w))))
      + List.length (finishedAlgorithms (this (snd (run f path algorithms w))))
      <= List.length algorithms)%nat.
Proof.
  assert (forall k, (k <= total)%nat ->
            map ErrorRecord.algorithm (errors (this (after k)))
              `sublist_of` take k algorithms
            /\ (List.length (errors (this (after k)))
                + List.length (finishedAlgorithms (this (after k))) <= k)%nat) as H.
  { apply steps_ind.
    - rewrite afterSteps_0. simpl. split; [apply sublist_nil_l | lia].
    - intros k a Ha [IHs IHl].
      rewrite (errors_after_step _ _ _ _ k a Ha),
        (finishedAlgorithms_after_step _ _ _ _ k a Ha), (take_S_r _ _ _ Ha).
      rewrite map_app, !length_app.
      destruct (outcome f path algorithms w k a) as [m | ex].
      + split.
        * apply sublist_app; [exact IHs | apply sublist_nil_l].
        * destruct (Z.eqb _ m); simpl; lia.
      + split.
        * apply sublist_app; [exact IHs | reflexivity].
        * simpl. lia. }
  destruct (H total (Nat.le_refl _)) as [Hs Hl].
  rewrite firstn_all in Hs. rewrite final_is_last_step. simpl. split; assumption.
Qed.

(** X7: [failed] is emitted by every failing step, with the error of that
    step, and by nothing else: the trace of the run has as many [failed]
    events as [errors] has records. *)
Theorem every_failing_step_emits_failed (k : nat) (a : string) (ex : Error) :
  algorithms !! k = Some a ->
  outcome f path algorithms w k a = Abrupt ex ->
  In (Emitted (on_failed ex)) (trace (snd (run f path algorithms w)))
  /\ List.length (List.filter isFailedEvent (trace (snd (run f path algorithms w))))
     = List.length (errors final).
Proof.
  intros Ha Hex. split.
  - assert (S k <= total)%nat as Hk by (apply lookup_lt_Some in Ha; lia).
    destruct (trace_of_run_extends_steps (S k) Hk) as [rest ->].
    rewrite (trace_after_step _ _ _ _ k a Ha), Hex. unfold stepTrace.
    apply in_or_app. left. apply in_or_app. right. simpl. tauto.
  - assert (forall j, (j <= total)%nat ->
              List.length (List.filter isFailedEvent (trace (after j)))
              = List.length (errors (this (after j)))) as H.
    { apply steps_ind.
      - rewrite afterSteps_0. reflexivity.
      - intros j b Hb IH.
        rewrite (trace_after_step _ _ _ _ j b Hb), (errors_after_step _ _ _ _ j b Hb).
        rewrite List.filter_app, !length_app, IH. f_equal.
        unfold stepTrace. destruct (outcome f path algorithms w j b) as [m | ex'];
          [destruct (Z.eqb _ m)|]; reflexivity. }
    rewrite run_eq. cbn [snd trace this errors set_finished].
    rewrite List.filter_app, length_app, (H total (Nat.le_refl _)). simpl. lia.
Qed.

(** X8: when every step fails, there is one error record per algorithm, in
    the order of the list, no algorithm is recorded as completed, [size] is
    still the original size, and [failed] is up as soon as the list has an
    algorithm. *)
Theorem run_in_which_every_step_fails :
  (forall k a, algorithms !! k = Some a ->
     exists ex, outcome f path algorithms w k a = Abrupt ex) ->
  map ErrorRecord.algorithm (errors final) = algorithms
  /\ finishedAlgorithms final = []
  /\ size final = originalSize final
  /\ (algorithms <> [] -> failed final = true).
Proof.
  intros Hall.
  assert (forall k, (k <= total)%nat ->
            map ErrorRecord.algorithm (errors (this (after k))) = take k algorithms
            /\ finishedAlgorithms (this (after k)) = []
            /\ size (this (after k)) = File.size f
            /\ ((0 < k)%nat -> failed (this (after k)) = true)) as H.
  { apply steps_ind.
    - rewrite afterSteps_0. simpl. repeat split. lia.
    - intros k a Ha (IHe & IHf & IHs & _). destruct (Hall k a Ha) as [ex Hex].
      rewrite (errors_after_step _ _ _ _ k a Ha),
        (finishedAlgorithms_after_step _ _ _ _ k a Ha),
        (size_after_step _ _ _ _ k a Ha), (failed_after_step _ _ _ _ k a Ha), Hex.
      rewrite map_app, IHe, IHf, (take_S_r _ _ _ Ha). repeat split. exact IHs. }
  destruct (H total (Nat.le_refl _)) as (He & Hf & Hs & Hfl).
  rewrite firstn_all in He.
  destruct (steps_frame f path algorithms w total (Nat.le_refl _)) as (_ & _ & Ho & _).
  rewrite final_is_last_step. simpl. repeat split; try assumption.
  - congruence.
  - intros Hne. apply Hfl. destruct algorithms; [congruence | simpl; lia].
Qed.

Lemma notYetFailed_no_failed_event (l : list Obs) :
  Forall notYetFailed l -> List.filter isFailedEvent l = [].
Proof.
  induction 1 as [|o l Ho _ IH]; [reflexivity|]. simpl. rewrite IH.
  destruct o as [p | []]; simpl in *; try reflexivity. contradiction.
Qed.

(** X9: when every step succeeds, the run records no error, never raises
    [failed] and emits no [failed] event. *)
Theorem run_in_which_every_step_succeeds :
  (forall k a, algorithms !! k = Some a ->
     exists m, outcome f path algorithms w k a = Normal m) ->
  errors final = []
  /\ failed final = false
  /\ List.filter isFailedEvent (trace (snd (run f path algorithms w))) = [].
Proof.
  intros Hall.
  destruct (steps_notYetFailed f path algorithms w total (Nat.le_refl _)) as [Htr Hf].
  { intros j b _ Hb. now apply Hall. }
  assert (errors (this (after total)) = []) as He.
  { destruct (failed_iff_errors_after total (Nat.le_refl _)) as [_ H].
    destruct (errors (this (after total))) as [|e l]; [reflexivity|].
    rewrite H in Hf by discriminate. discriminate Hf. }
  rewrite final_is_last_step, run_eq. cbn [snd trace]. simpl.
  repeat split; try assumption.
  rewrite List.filter_app, (notYetFailed_no_failed_event _ Htr). reflexivity.
Qed.

End MoreRun.

Section MoreRunInvariants.
Context {host : Host}.
Import Process.
Variables (f : File.t) (path : string) (algorithms : list string) (w : World).

Local Abbreviation after := (afterSteps f path algorithms w).
Local Abbreviation total := (List.length algorithms).
Local Abbreviation final := (this (snd (run f path algorithms w))).

Lemma stepTrace_keepsGivens (a : string) (i n : nat) (p : t) (c : Completion Z) :
  keepsGivens f path algorithms (Assigned p) ->
  Forall (keepsGivens f path algorithms) (stepTrace a i n p c)
  /\ keepsGivens f path algorithms (Assigned (stepInstance a i n p c)).
Proof.
  intros Hp. unfold stepTrace, stepInstance.
  destruct c as [m | ex]; [destruct (Z.eqb _ m)|]; cbn [app];
    (split;
     [repeat (apply List.Forall_cons; [first [exact Hp | exact I]|]);
      apply List.Forall_nil
     | exact Hp]).
Qed.

(** X10: in every state a run goes through, the file, the working path,
    the original size, the directory and the list of algorithms are those
    the constructor set: no step and no handler assigns them. *)
Theorem run_never_reassigns_what_it_was_given :
  Forall (keepsGivens f path algorithms) (trace (snd (run f path algorithms w)))
  /\ keepsGivens f path algorithms (Assigned final).
Proof.
  assert (forall k, (k <= total)%nat ->
            Forall (keepsGivens f path algorithms) (trace (after k))
            /\ keepsGivens f path algorithms (Assigned (this (after k)))) as H.
  { apply (trace_steps_Forall f path algorithms w (keepsGivens f path algorithms)
             (fun k => keepsGivens f path algorithms (Assigned (this (after k))))).
    - repeat split.
    - rewrite afterSteps_0. repeat split.
    - intros k a Ha IH.
      destruct (stepTrace_keepsGivens a k total (this (after k))
                  (outcome f path algorithms w k a) IH) as [Hst Hsi].
      split; [exact Hst|]. rewrite (afterSteps_S _ _ _ _ k a Ha). exact Hsi. }
  destruct (H total (Nat.le_refl _)) as [Htr Hlast].
  rewrite run_eq. cbn [snd trace this]. split; [|exact Hlast].
  apply Forall_app. split; [exact Htr|].
  repeat (apply List.Forall_cons; [first [exact Hlast | exact I]|]).
  apply List.Forall_nil.
Qed.

(** X11: the size at the end of the run is the size measured by the last
    step that succeeded: when step [k] succeeds with [m] bytes and every
    later step fails, the run ends with [size = m]. *)
Theorem last_successful_step_decides_the_size (k : nat) (a : string) (m : Z) :
  algorithms !! k = Some a ->
  outcome f path algorithms w k a = Normal m ->
  (forall j b, (k < j)%nat -> algorithms !! j = Some b ->
     exists ex, outcome f path algorithms w j b = Abrupt ex) ->
  size final = m.
Proof.
  intros Ha Hm Hlater.
  assert (S k <= total)%nat as Hk by (apply lookup_lt_Some in Ha; lia).
  assert (forall j, (S k + j <= total)%nat -> size (this (after (S k + j))) = m) as H.
  { induction j as [|j IH]; intros Hj.
    - rewrite Nat.add_0_r, (size_after_step _ _ _ _ k a Ha), Hm. reflexivity.
    - destruct (lookup_lt_is_Some_2 algorithms (S k + j)) as [b Hb]; [lia|].
      destruct (Hlater (S k + j)%nat b ltac:(lia) Hb) as [ex Hex].
      replace (S k + S j)%nat with (S (S k + j)) by lia.
      rewrite (size_after_step _ _ _ _ _ b Hb), Hex. apply IH. lia. }
  rewrite run_eq. cbn [snd this size set_finished].
  replace total with (S k + (total - S k))%nat at 1 by lia. apply H. lia.
Qed.

Lemma records_grow_along_steps (k i : nat) :
  (k + i <= total)%nat ->
  errors (this (after k)) `prefix_of` errors (this (after (k + i)))
  /\ finishedAlgorithms (this (after k))
       `prefix_of` finishedAlgorithms (this (after (k + i))).
Proof.
  induction i as [|i IH]; intros Hi.
  - rewrite Nat.add_0_r. split; reflexivity.
  - destruct IH as [IHe IHf]; [lia|].
    destruct (lookup_lt_is_Some_2 algorithms (k + i)) as [b Hb]; [lia|].
    replace (k + S i)%nat with (S (k + i)) by lia.
    rewrite (errors_after_step _ _ _ _ _ b Hb),
      (finishedAlgorithms_after_step _ _ _ _ _ b Hb).
    split; apply prefix_app_r; assumption.
Qed.

(** X12: nothing is ever removed from [errors] or from
    [finishedAlgorithms]: what they hold after [k] steps is a prefix of what
    they hold after any later step, and that is a prefix of what they hold
    at the end of the run. *)
Theorem records_only_grow (k j : nat) :
  (k + j <= total)%nat ->
  errors (this (afterSteps f path algorithms w k))
    `prefix_of` errors (this (afterSteps f path algorithms w (k + j)))
  /\ finishedAlgorithms (this (afterSteps f path algorithms w k))
       `prefix_of` finishedAlgorithms (this (afterSteps f path algorithms w (k + j)))
  /\ errors (this (afterSteps f path algorithms w (k + j)))
       `prefix_of` errors (this (snd (run f path algorithms w)))
  /\ finishedAlgorithms (this (afterSteps f path algorithms w (k + j)))
       `prefix_of` finishedAlgorithms (this (snd (run f path algorithms w))).
Proof.
  intros Hkj.
  destruct (records_grow_along_steps k j Hkj) as [He Hf].
  split; [exact He|]. split; [exact Hf|].
  rewrite run_eq. cbn [snd this errors finishedAlgorithms set_finished].
  pose proof (records_grow_along_steps (k + j) (total - (k + j))) as Hend.
  replace (k + j + (total - (k + j)))%nat with total in Hend by lia.
  apply Hend. lia.
Qed.

End MoreRunInvariants.

(** ** Construction, the promise chain and the copying observers *)

Section MoreConstruction.
Context {host : Host}.
Import Process.

(** X13: [new Process] throws only when it was asked not to keep the source
    and [fs.copyFileSync] threw, and then with the error of the copy and
    without any step; keeping the source it works on the file itself; and
    after a successful copy it works on the path of the copy, in the world
    the copy left. *)
Theorem constructor_throws_only_when_the_copy_does
    (f : File.t) (algorithms : list string) (keepSource : bool) (w : World) :
  let newPath :=
    String_replace (File.path f) (path_extname (File.path f))
      (" (1)" +:+ path_extname (File.path f)) in
  match constructor f algorithms keepSource w with
  | Abrupt ex =>
      keepSource = false
      /\ fst (fs_copyFileSync (File.path f) newPath w) = Abrupt ex
  | Normal r =>
      (keepSource = true /\ r = run f (File.path f) algorithms w)
      \/ (keepSource = false
          /\ fst (fs_copyFileSync (File.path f) newPath w) = Normal tt
          /\ r = run f newPath algorithms
                   (snd (fs_copyFileSync (File.path f) newPath w)))
  end.
Proof.
  intros newPath. unfold constructor, _getPath, _copySourceImage. fold newPath.
  destruct keepSource; [left; split; reflexivity|].
  destruct (fs_copyFileSync (File.path f) newPath w) as [[[] | ex] w']; simpl.
  - right. repeat split.
  - split; reflexivity.
Qed.

(** X14: the promise chain of the constructor, whatever the promise of the
    steps: when that promise is fulfilled the chain emits [done] then sets
    [finished] and emits [finish], and is fulfilled; when it is rejected,
    [this._error] being undefined, the chain skips [done], still sets
    [finished] and emits [finish], and stays rejected with the same error.
    The chain of a run is this one, on the promise of [Promise.map]. *)
Theorem chain_always_finishes (algorithms : list string) (steps : M (list unit))
    (s : Sys) :
  settle steps s
  = match steps s with
    | (Normal _, s') =>
        (Normal tt,
         mkSys (set_finished true (this s')) (world s')
           (trace s' ++ [Emitted (on_done (size (this s')));
                         Assigned (set_finished true (this s'));
                         Emitted on_finish]))
    | (Abrupt ex, s') =>
        (Abrupt ex,
         mkSys (set_finished true (this s')) (world s')
           (trace s' ++ [Assigned (set_finished true (this s'));
                         Emitted on_finish]))
    end
  /\ chain algorithms = settle (Promise_map algorithms _createJob).
Proof.
  split; [|reflexivity].
  unfold settle, finally_, catch_, then_, _done, _finish, _error, get, emit, assign.
  destruct (steps s) as [[bs | ex] s']; simpl; rewrite <- ?app_assoc; reflexivity.
Qed.

End MoreConstruction.

Section MoreObservers.
Import Store StoreFacts.

(** The object [getCurrentAlgorithm] allocates has the properties of the
    object in the field, one for one. *)
Lemma getCurrentAlgorithm_copies_the_record (h : Heap) (this : loc) (p : Process.t)
    (c : Current.t) :
  decode h this = Some p ->
  Process.currentAlgorithm p = Some c ->
  exists r ps,
    getProp h this "currentAlgorithm" = Some (VRef r)
    /\ h !! r = Some (Props ps)
    /\ readCurrent h (VRef r) = Some (Some c)
    /\ getCurrentAlgorithm h this = Some (VRef (List.length h), h ++ [Props ps])
    /\ readCurrent (h ++ [Props ps]) (VRef (List.length h)) = Some (Some c).
Proof.
  intros Hp Hc. destruct (decode_inv _ _ _ Hp) as (_ & (v & Hv & Hread) & _).
  rewrite Hc in Hread.
  destruct v as [| | | | |r]; try discriminate Hread.
  assert (exists ps, h !! r = Some (Props ps)) as [ps Hr].
  { simpl in Hread. unfold getProp in Hread.
    destruct (h !! r) as [[es|ps]|]; try discriminate Hread. eauto. }
  exists r, ps. split; [exact Hv|]. split; [exact Hr|]. split; [exact Hread|].
  split.
  - unfold getCurrentAlgorithm. rewrite Hv. simpl. rewrite Hr. reflexivity.
  - simpl in Hread. unfold getProp in Hread. rewrite Hr in Hread.
    simpl. rewrite !getProp_fresh. exact Hread.
Qed.

(** X15: [getAlgorithms], [getFinishedAlgorithms] and
    [getCurrentAlgorithm] each allocate a new array or object and return
    the reference to it. The new array has the elements of the field. The
    new object has no property when the field is [null]; otherwise it has
    the very properties of the object in the field, and reads as the same
    record of algorithm, index and length. Whatever a caller then writes
    through the reference it was given, the instance reads as before. *)
Theorem copying_observers_leave_the_instance_alone
    (h : Heap) (this : loc) (p : Process.t) :
  decode h this = Some p ->
  (getAlgorithms h this
     = Some (VRef (List.length h), h ++ [Array (map VStr (Process.algorithms p))])
   /\ forall o,
        decode (<[List.length h := o]>
                  (h ++ [Array (map VStr (Process.algorithms p))])) this = Some p)
  /\ (getFinishedAlgorithms h this
        = Some (VRef (List.length h),
                h ++ [Array (map VStr (Process.finishedAlgorithms p))])
      /\ forall o,
           decode (<[List.length h := o]>
                     (h ++ [Array (map VStr (Process.finishedAlgorithms p))])) this
           = Some p)
  /\ exists ps,
       getCurrentAlgorithm h this = Some (VRef (List.length h), h ++ [Props ps])
       /\ match Process.currentAlgorithm p with
          | None =>
              getProp h this "currentAlgorithm" = Some VNull /\ ps = []
          | Some c =>
              (exists r,
                 getProp h this "currentAlgorithm" = Some (VRef r)
                 /\ h !! r = Some (Props ps))
              /\ readCurrent (h ++ [Props ps]) (VRef (List.length h))
                 = Some (Some c)
          end
       /\ forall o, decode (<[List.length h := o]> (h ++ [Props ps])) this = Some p.
Proof.
  intros Hp. split; [now apply getAlgorithms_copies|].
  split; [now apply getFinishedAlgorithms_copies|].
  destruct (Process.currentAlgorithm p) as [c|] eqn:Hc.
  - destruct (getCurrentAlgorithm_copies_the_record _ _ _ c Hp Hc)
      as (r & ps & Hv & Hr & _ & Hget & Hread).
    exists ps. split; [exact Hget|]. split; [split; [eauto | exact Hread]|].
    intros o. rewrite insert_fresh. now apply decode_ext.
  - destruct (decode_inv _ _ _ Hp) as (_ & (v & Hv & Hread) & _).
    rewrite Hc in Hread.
    assert (v = VNull) as ->.
    { destruct v as [| | | | |r]; try discriminate Hread; [reflexivity|].
      simpl in Hread.
      destruct (getProp h r "algorithm" ≫= asStr) as [a|]; [|discriminate Hread].
      simpl in Hread.
      destruct (getProp h r "index" ≫= asIndex) as [i|]; [|discriminate Hread].
      simpl in Hread.
      destruct (getProp h r "length" ≫= asIndex) as [n|]; discriminate Hread. }
    exists []. split.
    + unfold getCurrentAlgorithm. rewrite Hv. reflexivity.
    + split; [split; [exact Hv | reflexivity]|].
      intros o. rewrite insert_fresh. now apply decode_ext.
Qed.

End MoreObservers.

(** ** Concrete runs for the further properties *)

Section MoreConcrete.
Import Process Scripted MoreScripted Store.

Local Abbreviation photoPath := "/tmp/photo.jpg".

Lemma every_failing_step_emits_failed_witness :
  jpegAlgorithms !! 0%nat = Some "jpegoptim"
  /\ outcome (host := Scripted.host) photo photoPath jpegAlgorithms mixed 0 "jpegoptim"
     = Abrupt epipe
  /\ In (Emitted (on_failed epipe))
       (trace (snd (run (host := Scripted.host) photo photoPath jpegAlgorithms mixed))).
Proof.
  assert (outcome (host := Scripted.host) photo photoPath jpegAlgorithms mixed 0
            "jpegoptim" = Abrupt epipe) as Hfail by (vm_compute; reflexivity).
  split; [reflexivity|]. split; [exact Hfail|].
  exact (proj1 (every_failing_step_emits_failed (host := Scripted.host)
                  photo photoPath jpegAlgorithms mixed 0 "jpegoptim" epipe
                  eq_refl Hfail)).
Defined.

Lemma run_in_which_every_step_fails_witness :
  (forall k a, jpegAlgorithms !! k = Some a ->
     exists ex, outcome (host := Scripted.host) photo photoPath jpegAlgorithms
                  allFail k a = Abrupt ex)
  /\ map ErrorRecord.algorithm
       (errors (this (snd (run (host := Scripted.host) photo photoPath jpegAlgorithms
                             allFail))))
     = jpegAlgorithms.
Proof.
  assert (forall k a, jpegAlgorithms !! k = Some a ->
            exists ex, outcome (host := Scripted.host) photo photoPath jpegAlgorithms
                         allFail k a = Abrupt ex) as Hall.
  { intros k a Hk.
    destruct k as [|[|[|k]]]; simpl in Hk; try discriminate Hk; injection Hk as <-.
    - exists epipe. vm_compute. reflexivity.
    - exists crash. vm_compute. reflexivity.
    - exists crash. vm_compute. reflexivity. }
  split; [exact Hall|].
  exact (proj1 (run_in_which_every_step_fails (host := Scripted.host)
                  photo photoPath jpegAlgorithms allFail Hall)).
Defined.

Lemma run_in_which_every_step_succeeds_witness :
  (forall k a, jpegAlgorithms !! k = Some a ->
     exists m, outcome (host := Scripted.host) photo photoPath jpegAlgorithms
                 allShrink k a = Normal m)
  /\ errors (this (snd (run (host := Scripted.host) photo photoPath jpegAlgorithms
                          allShrink))) = [].
Proof.
  assert (forall k a, jpegAlgorithms !! k = Some a ->
            exists m, outcome (host := Scripted.host) photo photoPath jpegAlgorithms
                        allShrink k a = Normal m) as Hall.
  { intros k a Hk.
    destruct k as [|[|[|k]]]; simpl in Hk; try discriminate Hk; injection Hk as <-.
    - exists 900. vm_compute. reflexivity.
    - exists 800. vm_compute. reflexivity.
    - exists 700. vm_compute. reflexivity. }
  split; [exact Hall|].
  exact (proj1 (run_in_which_every_step_succeeds (host := Scripted.host)
                  photo photoPath jpegAlgorithms allShrink Hall)).
Defined.

Lemma last_successful_step_witness :
  jpegAlgorithms !! 0%nat = Some "jpegoptim"
  /\ outcome (host := Scripted.host) photo photoPath jpegAlgorithms onlyFirstWorks 0
       "jpegoptim" = Normal 800
  /\ (forall j b, (0 < j)%nat -> jpegAlgorithms !! j = Some b ->
        exists ex, outcome (host := Scripted.host) photo photoPath jpegAlgorithms
                     onlyFirstWorks j b = Abrupt ex)
  /\ size (this (snd (run (host := Scripted.host) photo photoPath jpegAlgorithms
                        onlyFirstWorks))) = 800.
Proof.
  assert (outcome (host := Scripted.host) photo photoPath jpegAlgorithms onlyFirstWorks 0
            "jpegoptim" = Normal 800) as Hok by (vm_compute; reflexivity).
  assert (forall j b, (0 < j)%nat -> jpegAlgorithms !! j = Some b ->
            exists ex, outcome (host := Scripted.host) photo photoPath jpegAlgorithms
                         onlyFirstWorks j b = Abrupt ex) as Hlater.
  { intros j b Hj Hb.
    destruct j as [|[|[|j]]]; [lia | | |]; simpl in Hb; try discriminate Hb;
      injection Hb as <-; exists crash; vm_compute; reflexivity. }
  split; [reflexivity|]. split; [exact Hok|]. split; [exact Hlater|].
  exact (last_successful_step_decides_the_size (host := Scripted.host)
           photo photoPath jpegAlgorithms onlyFirstWorks 0 "jpegoptim" 800
           eq_refl Hok Hlater).
Defined.

Lemma records_only_grow_witness :
  (1 + 1 <= List.length jpegAlgorithms)%nat
  /\ errors (this (afterSteps (host := Scripted.host) photo photoPath jpegAlgorithms
                     mixed 1))
       `prefix_of`
     errors (this (afterSteps (host := Scripted.host) photo photoPath jpegAlgorithms
                     mixed (1 + 1))).
Proof.
  assert (1 + 1 <= List.length jpegAlgorithms)%nat as H by (simpl; lia).
  split; [exact H|].
  exact (proj1 (records_only_grow (host := Scripted.host)
                  photo photoPath jpegAlgorithms mixed 1 1 H)).
Defined.

Lemma copying_observers_witness :
  decode (snd (store mixedEnd [])) (fst (store mixedEnd [])) = Some mixedEnd
  /\ getAlgorithms (snd (store mixedEnd [])) (fst (store mixedEnd []))
     = Some (VRef (List.length (snd (store mixedEnd []))),
             snd (store mixedEnd [])
             ++ [Array (map VStr (Process.algorithms mixedEnd))]).
Proof.
  assert (decode (snd (store mixedEnd [])) (fst (store mixedEnd [])) = Some mixedEnd)
    as H by (vm_compute; reflexivity).
  split; [exact H|].
  exact (proj1 (proj1 (copying_observers_leave_the_instance_alone _ _ _ H))).
Defined.

End MoreConcrete.

(** On a host whose copy fails, the constructor throws the error of the
    copy. *)
Example constructor_on_a_read_only_directory :
  Process.constructor (host := MoreScripted.readOnly) Scripted.photo
    Scripted.jpegAlgorithms false Scripted.mixed
  = Abrupt (mkError (Some "EACCES") "permission denied").
Proof. vm_compute. reflexivity. Qed.
